(** * smaz-py3: the CPython wrapper around the SMAZ codec

    A shallow embedding of [src/smazmodule.c]: the two entry points
    [py_smaz_compress] and [py_smaz_decompress], the C heap they allocate
    their scratch buffer from, and the CPython calls they make to take their
    argument apart and to build their result. *)

From Stdlib Require Import ZArith Lia String.
From Stdlib.Strings Require Import Byte.
From stdpp Require Import base list gmap.

Local Open Scope Z_scope.

(** ** C integers *)

Module CInt.

Definition INT_MIN : Z := - 2 ^ 31.
Definition INT_MAX : Z := 2 ^ 31 - 1.

Definition in_range (z : Z) : bool := (INT_MIN <=? z) && (z <=? INT_MAX).

(** Conversion of a [size_t] or [Py_ssize_t] value to [int], as it happens
    when [strlen(...)] or [compressed_data_size] is passed for the [int inlen]
    parameter of the codec: the value is reduced modulo [2^32]. *)
Definition of_size (z : Z) : Z := (z + 2 ^ 31) mod 2 ^ 32 - 2 ^ 31.

End CInt.

(** ** Bytes and C strings *)

Definition is_nul (b : byte) : bool := Byte.eqb b x00.

Definition has_nul (s : list byte) : bool := existsb is_nul s.

(** The bytes of [mem] before its first zero byte; [None] when [mem] holds no
    zero byte, so that a reader looking for the terminator leaves [mem]. *)
Fixpoint c_string (mem : list byte) : option (list byte) :=
  match mem with
  | [] => None
  | b :: rest =>
      if is_nul b then Some []
      else match c_string rest with
           | Some s => Some (b :: s)
           | None => None
           end
  end.

(** The well-formed UTF-8 byte sequences (Unicode, table 3-7): what the strict
    UTF-8 decoder of CPython accepts. *)
Definition between (lo hi : N) (b : byte) : bool :=
  ((lo <=? Byte.to_N b) && (Byte.to_N b <=? hi))%N.

Definition continuation (b : byte) : bool := between 128 191 b.

Fixpoint utf8_valid (s : list byte) : bool :=
  match s with
  | [] => true
  | b1 :: r1 =>
      if between 0 127 b1 then utf8_valid r1
      else match r1 with
      | [] => false
      | b2 :: r2 =>
          if between 194 223 b1 then continuation b2 && utf8_valid r2
          else match r2 with
          | [] => false
          | b3 :: r3 =>
              if between 224 239 b1 then
                (if between 224 224 b1 then between 160 191 b2
                 else if between 237 237 b1 then between 128 159 b2
                 else continuation b2)
                && continuation b3 && utf8_valid r3
              else match r3 with
              | [] => false
              | b4 :: r4 =>
                  if between 240 244 b1 then
                    (if between 240 240 b1 then between 144 191 b2
                     else if between 244 244 b1 then between 128 143 b2
                     else continuation b2)
                    && continuation b3 && continuation b4 && utf8_valid r4
                  else false
              end
          end
      end
  end.

(** ** Python objects, as far as the two entry points tell them apart

    A [str] object is given by its UTF-8 form, which is the buffer the ["s"]
    format unit hands to C (a [str] with lone surrogates has none, is turned
    down by the format unit and is not represented); a [bytes] object by its
    content. *)

#[warnings="-register-all"]
Inductive PyObject : Type :=
| PyNone
| PyLong (n : Z)
| PyUnicode (utf8 : list byte)
| PyBytes (data : list byte)
| PyList (items : list PyObject)
| PyTuple (items : list PyObject).

Inductive exn : Type :=
| TypeError (fname : string)
| ValueError
| UnicodeDecodeError
| MemoryError.

(** What a [PyObject *]-returning C function hands back: an object, or [NULL]
    with the error indicator set. *)
Inductive PyResult : Type :=
| PyReturn (v : PyObject)
| PyRaise (e : exn).

(** ** The C heap *)

(** A pointer to the start of a heap block; [None] is [NULL]. *)
Definition pointer : Type := option nat.

Inductive event : Type :=
| EMalloc (size : Z) (p : pointer)
| ERealloc (old : pointer) (size : Z) (p : pointer)
| EFree (p : pointer)
| EInvoke (inlen : Z) (out : pointer) (outlen : Z).

(** [live] maps each allocated block to its content, whose length is the
    block's capacity.  [grants] says which allocation requests succeed, counted
    from the start of the world by [requests]; [junk] is what a fresh block
    holds before anything is stored in it.  [trace] records, oldest first, the
    allocator calls and codec invocations made so far. *)
Record world : Type := World {
  live : gmap nat (list byte);
  requests : nat;
  grants : nat -> bool;
  junk : nat -> nat -> byte;
  trace : list event
}.

Definition set_live (f : gmap nat (list byte) -> gmap nat (list byte)) (w : world) : world :=
  World (f (live w)) (requests w) (grants w) (junk w) (trace w).

Definition next_request (w : world) : world :=
  World (live w) (S (requests w)) (grants w) (junk w) (trace w).

Definition log (e : event) (w : world) : world :=
  World (live w) (requests w) (grants w) (junk w) (trace w ++ [e]).

(** Undefined behaviour of the C program. *)
Inductive ub : Type :=
| NullDereference
| OutOfBounds
| UseAfterFree
| SignedOverflow.

Inductive outcome (A : Type) : Type :=
| Ok (a : A) (w : world)
| Fault (u : ub) (w : world)
| Timeout.
Arguments Ok {A} a w.
Arguments Fault {A} u w.
Arguments Timeout {A}.

Definition M (A : Type) : Type := world -> outcome A.

#[global] Instance M_ret : MRet M := fun A a w => Ok a w.

#[global] Instance M_bind : MBind M := fun A B f m w =>
  match m w with
  | Ok a w' => f a w'
  | Fault u w' => Fault u w'
  | Timeout => Timeout
  end.

Definition fault {A} (u : ub) : M A := fun w => Fault u w.
Definition timeout {A} : M A := fun _ => Timeout.

(** Uninitialised content of block [id] at offsets [from .. from + n - 1]. *)
Definition fresh (w : world) (id : nat) (from n : nat) : list byte :=
  map (junk w id) (seq from n).

Definition malloc (size : Z) : M pointer := fun w =>
  let id := requests w in
  if (0 <=? size) && grants w id then
    Ok (Some id)
       (log (EMalloc size (Some id))
          (next_request (set_live (insert id (fresh w id 0 (Z.to_nat size))) w)))
  else Ok None (log (EMalloc size None) (next_request w)).

Definition realloc (old : pointer) (size : Z) : M pointer := fun w =>
  let id := requests w in
  match old with
  | None =>
      if (0 <=? size) && grants w id then
        Ok (Some id)
           (log (ERealloc old size (Some id))
              (next_request (set_live (insert id (fresh w id 0 (Z.to_nat size))) w)))
      else Ok None (log (ERealloc old size None) (next_request w))
  | Some o =>
      match live w !! o with
      | None => Fault UseAfterFree w
      | Some c =>
          if (0 <=? size) && grants w id then
            let kept := take (Z.to_nat size) c in
            let c' := kept ++ fresh w id (length kept) (Z.to_nat size - length kept) in
            Ok (Some id)
               (log (ERealloc old size (Some id))
                  (next_request (set_live (fun m => <[id := c']> (delete o m)) w)))
          else Ok None (log (ERealloc old size None) (next_request w))
      end
  end.

Definition free (p : pointer) : M unit := fun w =>
  match p with
  | None => Ok tt (log (EFree p) w)
  | Some id =>
      match live w !! id with
      | None => Fault UseAfterFree w
      | Some _ => Ok tt (log (EFree p) (set_live (delete id) w))
      end
  end.

(** [p[i] = b] *)
Definition store (p : pointer) (i : Z) (b : byte) : M unit := fun w =>
  match p with
  | None => Fault NullDereference w
  | Some id =>
      match live w !! id with
      | None => Fault UseAfterFree w
      | Some c =>
          if (0 <=? i) && (i <? Z.of_nat (length c)) then
            Ok tt (set_live (insert id (<[Z.to_nat i := b]> c)) w)
          else Fault OutOfBounds w
      end
  end.

(** [strlen(s)], for [s] a buffer outside the heap. *)
Definition strlen (s : list byte) : M Z := fun w =>
  match c_string s with
  | Some t => Ok (Z.of_nat (length t)) w
  | None => Fault OutOfBounds w
  end.

Definition int_add (a b : Z) : M Z :=
  if CInt.in_range (a + b) then mret (a + b) else fault SignedOverflow.

Definition int_mul (a b : Z) : M Z :=
  if CInt.in_range (a * b) then mret (a * b) else fault SignedOverflow.

(** ** The CPython calls

    Creating the result object is taken to succeed: the only allocations that
    can fail in this model are those of the scratch buffer. *)

(** [PyArg_ParseTuple(args, "s:<fname>", &p)]: exactly one argument, a [str]
    without embedded null character; [p] then points to its UTF-8 form
    followed by a zero byte. *)
Definition PyArg_ParseTuple_s (fname : string) (args : list PyObject) : exn + list byte :=
  match args with
  | [PyUnicode u] => if has_nul u then inl ValueError else inr (u ++ [x00])
  | _ => inl (TypeError fname)
  end.

(** [PyArg_ParseTuple(args, "y#:<fname>", &p, &n)]: exactly one argument, a
    [bytes] object, of any content; [p] points to its content (which CPython
    keeps followed by a zero byte) and [n] is its size. *)
Definition PyArg_ParseTuple_y_hash (fname : string) (args : list PyObject) : exn + (list byte * Z) :=
  match args with
  | [PyBytes d] => inr (d ++ [x00], Z.of_nat (length d))
  | _ => inl (TypeError fname)
  end.

(** The [n] bytes a reader finds at [p]; [None] when the block holds fewer,
    and when [n] is negative: the callee takes its length argument as a
    [Py_ssize_t], where the negative [int] arrives as a length of [2^32 + n]. *)
Definition read (c : list byte) (n : Z) : option (list byte) :=
  if n <? 0 then None
  else if n <=? Z.of_nat (length c) then Some (take (Z.to_nat n) c)
  else None.

(** [Py_BuildValue("y#", p, n)]: [None] for a null [p], else a [bytes] object
    holding a copy of [p[0 .. n-1]]; see [read] for the [int] passed for
    [n]. *)
Definition Py_BuildValue_y_hash (p : pointer) (n : Z) : M PyResult := fun w =>
  match p with
  | None => Ok (PyReturn PyNone) w
  | Some id =>
      match live w !! id with
      | None => Fault UseAfterFree w
      | Some c =>
          match read c n with
          | Some s => Ok (PyReturn (PyBytes s)) w
          | None => Fault OutOfBounds w
          end
      end
  end.

(** [Py_BuildValue("s", p)]: [None] for a null [p], else the [str] decoded,
    strictly, from the UTF-8 bytes at [p] up to the terminator. *)
Definition Py_BuildValue_s (p : pointer) : M PyResult := fun w =>
  match p with
  | None => Ok (PyReturn PyNone) w
  | Some id =>
      match live w !! id with
      | None => Fault UseAfterFree w
      | Some c =>
          match c_string c with
          | Some s =>
              if utf8_valid s then Ok (PyReturn (PyUnicode s)) w
              else Ok (PyRaise UnicodeDecodeError) w
          | None => Fault OutOfBounds w
          end
      end
  end.

(** ** The codec routines

    [smaz_compress] and [smaz_decompress] are declared in [smaz/smaz.h]:
    [int f(char *in, int inlen, char *out, int outlen)].  Such a routine is
    given here by what it returns and by the bytes it stores, from [out[0]]
    on, for the input buffer, [inlen] and [outlen] it is called with. *)
Definition transform : Type := list byte -> Z -> Z -> Z * list byte.

(** The call [f(in, inlen, out, outlen)]. *)
Definition invoke (f : transform) (input : list byte) (inlen : Z)
    (out : pointer) (outlen : Z) : M Z := fun w =>
  let w := log (EInvoke inlen out outlen) w in
  let '(code, stored) := f input inlen outlen in
  match stored with
  | [] => Ok code w
  | _ :: _ =>
      match out with
      | None => Fault NullDereference w
      | Some id =>
          match live w !! id with
          | None => Fault UseAfterFree w
          | Some c =>
              if (length stored <=? length c)%nat then
                Ok code (set_live (insert id (stored ++ drop (length stored) c)) w)
              else Fault OutOfBounds w
          end
      end
  end.

(** ** The two entry points *)

(** Iterations granted to the [while] loops below; no run uses them up, see
    [sizing_loop_path]. *)
Definition fuel : nat := 32.

Section Wrapper.

Variables smaz_compress smaz_decompress : transform.

(** The [while] loop of [py_smaz_compress], entered with the values its
    three variables have after the first call of the codec. *)
Fixpoint compress_loop (n : nat) (uncompressed_input : list byte)
    (output_buffer_size : Z) (output_buffer : pointer) (compressed_size : Z)
    : M (Z * pointer * Z) :=
  match n with
  | O => timeout
  | S n =>
      sentinel ← int_add output_buffer_size 1;
      if sentinel =? compressed_size then
        output_buffer_size ← int_mul output_buffer_size 2;
        output_buffer ← realloc output_buffer output_buffer_size;
        len ← strlen uncompressed_input;
        compressed_size ← invoke smaz_compress uncompressed_input (CInt.of_size len)
                            output_buffer output_buffer_size;
        compress_loop n uncompressed_input output_buffer_size output_buffer compressed_size
      else mret (output_buffer_size, output_buffer, compressed_size)
  end.

(** Lines 18 to 42 of [smazmodule.c]: the scratch buffer is allocated and the codec called
    until its output fits; the values of [output_buffer_size],
    [output_buffer] and [compressed_size] after the loop. *)
Definition compress_sizing (uncompressed_input : list byte) : M (Z * pointer * Z) :=
  let output_buffer_size := 4096 in
  output_buffer ← malloc output_buffer_size;
  len ← strlen uncompressed_input;
  compressed_size ← invoke smaz_compress uncompressed_input (CInt.of_size len)
                      output_buffer output_buffer_size;
  compress_loop fuel uncompressed_input output_buffer_size output_buffer compressed_size.

(** Lines 48 to 51: the [bytes] object is built and the buffer released. *)
Definition compress_result (output_buffer : pointer) (compressed_size : Z) : M PyResult :=
  py_bytes_object ← Py_BuildValue_y_hash output_buffer compressed_size;
  free output_buffer;;
  mret py_bytes_object.

Definition py_smaz_compress (args : list PyObject) : M PyResult :=
  match PyArg_ParseTuple_s "compress" args with
  | inl e => mret (PyRaise e)
  | inr uncompressed_input =>
      '(_, output_buffer, compressed_size) ← compress_sizing uncompressed_input;
      compress_result output_buffer compressed_size
  end.

(** The [while] loop of [py_smaz_decompress]. *)
Fixpoint decompress_loop (n : nat) (compressed_data : list byte) (compressed_data_size : Z)
    (output_buffer_size : Z) (output_buffer : pointer) (decompressed_size : Z)
    : M (Z * pointer * Z) :=
  match n with
  | O => timeout
  | S n =>
      sentinel ← int_add output_buffer_size 1;
      if sentinel =? decompressed_size then
        output_buffer_size ← int_mul output_buffer_size 2;
        output_buffer ← malloc output_buffer_size;
        decompressed_size ← invoke smaz_decompress compressed_data
                              (CInt.of_size compressed_data_size)
                              output_buffer output_buffer_size;
        decompress_loop n compressed_data compressed_data_size
          output_buffer_size output_buffer decompressed_size
      else mret (output_buffer_size, output_buffer, decompressed_size)
  end.

(** Lines 72 to 92. *)
Definition decompress_sizing (compressed_data : list byte) (compressed_data_size : Z)
    : M (Z * pointer * Z) :=
  let output_buffer_size := 4096 in
  output_buffer ← malloc output_buffer_size;
  decompressed_size ← invoke smaz_decompress compressed_data
                        (CInt.of_size compressed_data_size)
                        output_buffer output_buffer_size;
  decompress_loop fuel compressed_data compressed_data_size
    output_buffer_size output_buffer decompressed_size.

(** Lines 98 to 101: the output is terminated, the [str] object built and
    the buffer released. *)
Definition decompress_result (output_buffer : pointer) (decompressed_size : Z) : M PyResult :=
  store output_buffer decompressed_size x00;;
  py_string_object ← Py_BuildValue_s output_buffer;
  free output_buffer;;
  mret py_string_object.

Definition py_smaz_decompress (args : list PyObject) : M PyResult :=
  match PyArg_ParseTuple_y_hash "decompress" args with
  | inl e => mret (PyRaise e)
  | inr (compressed_data, compressed_data_size) =>
      '(_, output_buffer, decompressed_size) ←
        decompress_sizing compressed_data compressed_data_size;
      decompress_result output_buffer decompressed_size
  end.

End Wrapper.

(** ** The sizing protocol shared by the two entry points

    The loops of [py_smaz_compress] and [py_smaz_decompress] differ in the
    codec routine they call and in how they obtain the larger buffer
    ([realloc] of the old one, or a fresh [malloc]). *)

Section Sizing.

Variable grow : pointer -> Z -> M pointer.
Variable f : transform.
Variable input : list byte.
Variable inlen : Z.

Fixpoint sizing_loop (n : nat) (size : Z) (buf : pointer) (code : Z) : M (Z * pointer * Z) :=
  match n with
  | O => timeout
  | S n =>
      sentinel ← int_add size 1;
      if sentinel =? code then
        size ← int_mul size 2;
        buf ← grow buf size;
        code ← invoke f input inlen buf size;
        sizing_loop n size buf code
      else mret (size, buf, code)
  end.

Definition sizing : M (Z * pointer * Z) :=
  buf ← malloc 4096;
  code ← invoke f input inlen buf 4096;
  sizing_loop fuel 4096 buf code.

End Sizing.

(** ** Notions the statements below are written with *)

(** The bytes of [s] before its first zero byte, all of [s] when it has none. *)
Fixpoint until_nul (s : list byte) : list byte :=
  match s with
  | [] => []
  | b :: rest => if is_nul b then [] else b :: until_nul rest
  end.

Definition returns {A} (o : outcome A) (a : A) : Prop := exists w', o = Ok a w'.

Definition faults {A} (o : outcome A) (u : ub) : Prop := exists w', o = Fault u w'.

(** Every allocation request made from [w] on succeeds. *)
Definition granted (w : world) : Prop :=
  forall i, (requests w <= i)%nat -> grants w i = true.

(** [L] is one of the capacities [4096], [8192], ... that fit an [int]. *)
Definition is_capacity (L : Z) : bool :=
  existsb (fun k => L =? 4096 * 2 ^ Z.of_nat k) (seq 0 19).

(** The capacities at which the codec was invoked, oldest first. *)
Definition capacity_of (e : event) : option Z :=
  match e with
  | EInvoke _ _ outlen => Some outlen
  | _ => None
  end.

Definition invoked (evs : list event) : list Z := omap capacity_of evs.

(** What the codec returns when it is given [outlen] bytes of room. *)
Definition report (f : transform) (input : list byte) (inlen : Z) (outlen : Z) : Z :=
  fst (f input inlen outlen).

(** The state machine of the specification: [Sizing C] is left for
    [Sizing (2 * C)] when the codec reports [C + 1], and for [Done L] when it
    reports any other [L]. *)
Inductive phase : Type :=
| Sizing (C : Z)
| Done (L : Z).

Inductive step (rep : Z -> Z) : phase -> phase -> Prop :=
| step_overflow C : rep C = C + 1 -> step rep (Sizing C) (Sizing (2 * C))
| step_success C : rep C <> C + 1 -> step rep (Sizing C) (Done (rep C)).

(** [path rep s cs s']: the machine goes from [s] to [s'], leaving in turn the
    states [Sizing C] for [C] in [cs]. *)
Inductive path (rep : Z -> Z) : phase -> list Z -> phase -> Prop :=
| path_stay s : path rep s [] s
| path_move C s cs s' :
    step rep (Sizing C) s -> path rep s cs s' -> path rep (Sizing C) (C :: cs) s'.

(** Modelled from the spec: the codec routines [smaz_compress] and
    [smaz_decompress] of [smaz/smaz.c], which is not among the sources.  Their
    contract: with room for the whole output [image] of the first [inlen] input
    bytes, the routine returns its length and stores it at the start of the
    buffer; with less room it returns [outlen + 1]; it never stores beyond
    [outlen] bytes. *)
Record honours (f : transform) (image : list byte -> list byte) : Prop := Honours {
  fits : forall input inlen outlen,
    0 <= inlen <= Z.of_nat (length input) ->
    Z.of_nat (length (image (take (Z.to_nat inlen) input))) <= outlen ->
    exists spare,
      f input inlen outlen
      = (Z.of_nat (length (image (take (Z.to_nat inlen) input))),
         image (take (Z.to_nat inlen) input) ++ spare)
      /\ Z.of_nat (length (image (take (Z.to_nat inlen) input) ++ spare)) <= outlen;
  overflows : forall input inlen outlen,
    0 <= inlen <= Z.of_nat (length input) ->
    0 <= outlen < Z.of_nat (length (image (take (Z.to_nat inlen) input))) ->
    exists stored,
      f input inlen outlen = (outlen + 1, stored)
      /\ Z.of_nat (length stored) <= outlen
}.

(** A routine that honours the contract, used to run the entry points on
    concrete arguments: it copies its input, and on overflow stops at the end
    of the buffer. *)
Definition verbatim : transform := fun input inlen outlen =>
  let out := take (Z.to_nat inlen) input in
  if Z.of_nat (length out) <=? outlen then (Z.of_nat (length out), out)
  else (outlen + 1, take (Z.to_nat outlen) out).

(** An empty heap that grants every request, and one that grants none; fresh
    memory holds [0xAA]. *)
Definition plenty : world := World ∅ 0 (fun _ => true) (fun _ _ => xaa) [].
Definition exhausted : world := World ∅ 0 (fun _ => false) (fun _ _ => xaa) [].

(** [n] times the letter ["a"]. *)
Definition letters (n : Z) : list byte := repeat x61 (Z.to_nat n).

(** The events of a run. *)
Definition trace_of {A} (o : outcome A) : list event :=
  match o with
  | Ok _ w | Fault _ w => trace w
  | Timeout => []
  end.

(** [decompress(compress(s))] *)
Definition roundtrip (smaz_compress smaz_decompress : transform) (s : list byte) : M PyResult :=
  fun w =>
    match py_smaz_compress smaz_compress [PyUnicode s] w with
    | Ok (PyReturn compressed) w' => py_smaz_decompress smaz_decompress [compressed] w'
    | other => other
    end.

(** The shapes [PyArg_ParseTuple] accepts for the two entry points. *)
Definition one_str (args : list PyObject) : bool :=
  match args with
  | [PyUnicode _] => true
  | _ => false
  end.

Definition one_bytes (args : list PyObject) : bool :=
  match args with
  | [PyBytes _] => true
  | _ => false
  end.

(** An allocator call adds one event, which is not a codec invocation. *)
Definition quiet (grow : pointer -> Z -> M pointer) : Prop :=
  forall p size w,
    match grow p size w with
    | Ok _ w' => exists e, trace w' = trace w ++ [e] /\ capacity_of e = None
    | Fault _ w' => trace w' = trace w
    | Timeout => False
    end.

(** How a run of the sizing phase that started in [Sizing C0] relates to the
    machine: finished, it followed a path to [Done L]; cut short by undefined
    behaviour, it followed a path to the state [Sizing C] in which the codec
    was last invoked, and when that behaviour is the overflow of the [int]
    capacity, the codec had reported the sentinel at [C] and [2 * C] is no
    [int]. *)
Definition follows (rep : Z -> Z) (C0 : Z) (o : outcome (Z * pointer * Z))
    (cs : list Z) : Prop :=
  match o with
  | Ok (C, _, L) _ =>
      path rep (Sizing C0) cs (Done L) /\ last cs = Some C /\ L = rep C
  | Fault x _ =>
      exists cs' C,
        cs = cs' ++ [C] /\ path rep (Sizing C0) cs' (Sizing C)
        /\ (x = SignedOverflow -> rep C = C + 1 /\ CInt.in_range (C * 2) = false)
  | Timeout => False
  end.

Definition events_since {A} (w : world) (o : outcome A) (evs : list event) : Prop :=
  match o with
  | Ok _ w' | Fault _ w' => trace w' = trace w ++ evs
  | Timeout => True
  end.

(** Every codec invocation among [evs] was made with input length [inlen]. *)
Definition invoked_with (inlen : Z) (evs : list event) : Prop :=
  forall i p outlen, In (EInvoke i p outlen) evs -> i = inlen.

(** [p] points to a live block of [C] bytes. *)
Definition holds (w : world) (p : pointer) (C : Z) : Prop :=
  exists id c, p = Some id /\ live w !! id = Some c /\ Z.of_nat (length c) = C.

(** [p] points to a live block of [C] bytes that starts with [out]. *)
Definition holds_output (w : world) (p : pointer) (C : Z) (out : list byte) : Prop :=
  exists id c,
    p = Some id /\ live w !! id = Some c /\ Z.of_nat (length c) = C
    /\ take (length out) c = out.

Definition grows (grow : pointer -> Z -> M pointer) : Prop :=
  forall p size C w,
    0 <= size -> granted w -> holds w p C ->
    exists p' w', grow p size w = Ok p' w' /\ holds w' p' size /\ granted w'.

(** What holds once the codec, whose whole output is [out], was given [C]
    bytes of room at [p] and returned [code]. *)
Definition sized (out : list byte) (w : world) (p : pointer) (C code : Z) : Prop :=
  (Z.of_nat (length out) <= C /\ code = Z.of_nat (length out) /\ holds_output w p C out)
  \/ (C < Z.of_nat (length out) /\ code = C + 1 /\ holds w p C).

(** The object [Py_BuildValue("s", p)] makes of the zero-terminated [s]. *)
Definition text_of (s : list byte) : PyResult :=
  if utf8_valid (until_nul s) then PyReturn (PyUnicode (until_nul s))
  else PyRaise UnicodeDecodeError.

(** A heap whose only block, of four bytes, holds ["ok"] and two stale bytes. *)
Definition scratch : world :=
  World {[ 0%nat := [x6f; x6b; x21; x21] ]} 1 (fun _ => true) (fun _ _ => xaa) [].


(** ** Further notions: heap discipline and codecs that never fit *)

(** The codec stores no more than the room it is given. *)
Definition within_room (f : transform) (input : list byte) (inlen : Z) : Prop :=
  forall C, 0 <= C -> Z.of_nat (length (snd (f input inlen C))) <= C.

(** [4096 * 2^k] is the first capacity at which the report is not the
    sentinel. *)
Definition first_fit (rep : Z -> Z) (k : nat) : Prop :=
  (forall j : nat, (j < k)%nat -> rep (4096 * 2 ^ Z.of_nat j) = 4096 * 2 ^ Z.of_nat j + 1)
  /\ rep (4096 * 2 ^ Z.of_nat k) <> 4096 * 2 ^ Z.of_nat k + 1.

(** A memory call that does not end in the overflow of an [int]. *)
Definition no_overflow (grow : pointer -> Z -> M pointer) : Prop :=
  forall p size w x w', grow p size w = Fault x w' -> x <> SignedOverflow.

(** No block beyond those requested so far is allocated. *)
Definition wf (w : world) : Prop :=
  forall id, (requests w <= id)%nat -> live w !! id = None.

(** Every allocation request made from [w] on is refused. *)
Definition refused (w : world) : Prop :=
  forall i, (requests w <= i)%nat -> grants w i = false.

(** The capacities of the first [n] rounds: 4096, 8192, ... *)
Definition capacities (n : nat) : list Z :=
  map (fun k => 4096 * 2 ^ Z.of_nat k) (seq 0 n).

(** A routine that reports overflow whatever room it is given, and stores
    nothing. *)
Definition insatiable : transform := fun _ _ outlen => (outlen + 1, []).

(** The codec reports overflow at each of the 19 capacities, storing no more
    than it has room for. *)
Definition never_fits (f : transform) (input : list byte) (inlen : Z) : Prop :=
  forall k : nat, (k <= 18)%nat ->
    exists st,
      f input inlen (4096 * 2 ^ Z.of_nat k) = (4096 * 2 ^ Z.of_nat k + 1, st)
      /\ Z.of_nat (length st) <= 4096 * 2 ^ Z.of_nat k.

(** ** The method table and the module definition

    Lines 105 to 127 of [smazmodule.c]: the table [SmazMethods], the module
    definition [smazmodule] and the initialisation function [PyInit_smaz]. *)

(** The calling convention [METH_VARARGS]: the C function is handed [self]
    and the tuple of positional arguments. *)
Definition METH_VARARGS : Z := 1.

(** A [PyCFunction], from the argument tuple to the result ([self], the
    module, is used by neither entry point). *)
Definition PyCFunction : Type := list PyObject -> M PyResult.

(** A [PyMethodDef]; a null [char *] or function pointer is [None]. *)
Record PyMethodDef : Type := MethodDef {
  ml_name : option string;
  ml_meth : option PyCFunction;
  ml_flags : Z;
  ml_doc : option string
}.

Record PyModuleDef : Type := ModuleDef {
  m_name : string;
  m_doc : option string;
  m_size : Z;
  m_methods : list PyMethodDef
}.

(** The character [\n], and the text made of the given lines. *)
Definition newline : string := String (Ascii.ascii_of_nat 10) EmptyString.

Definition text (lines : list string) : string := String.concat newline lines.

Definition compress_doc : string :=
  text [ "Compresses a string using SMAZ compression."%string;
         EmptyString;
         "Args:"%string;
         "    string: An input string"%string;
         "Returns:"%string;
         "    bytes: The input string compressed via SMAZ compression."%string ].

Definition decompress_doc : string :=
  text [ "Decompresses a SMAZ compressed string."%string;
         EmptyString;
         "Args:"%string;
         "    bytes: A SMAZ compressed input string"%string;
         "Returns:"%string;
         "    string: The input string decompressed via SMAZ decompression."%string ].

Section MethodTable.

Variables smaz_compress smaz_decompress : transform.

Definition SmazMethods : list PyMethodDef :=
  [ MethodDef (Some "compress"%string) (Some (py_smaz_compress smaz_compress))
      METH_VARARGS (Some compress_doc);
    MethodDef (Some "decompress"%string) (Some (py_smaz_decompress smaz_decompress))
      METH_VARARGS (Some decompress_doc);
    MethodDef None None 0 None ].

Definition smazmodule : PyModuleDef :=
  ModuleDef "smaz"%string (Some "String compression library using SMAZ"%string) (-1) SmazMethods.

End MethodTable.

(** A module object: its name, its docstring and the built-in functions in
    its dictionary, in the order they were added. *)
Record PyModule : Type := ModuleObject {
  md_name : string;
  md_doc : option string;
  md_functions : list (string * PyMethodDef)
}.

(** The entries of a method table that precede its sentinel, the first entry
    with a null name, each with the name it is added under. *)
Fixpoint before_sentinel (table : list PyMethodDef) : list (string * PyMethodDef) :=
  match table with
  | [] => []
  | m :: rest =>
      match ml_name m with
      | None => []
      | Some name => (name, m) :: before_sentinel rest
      end
  end.

(** [PyModule_Create(def)], taken to succeed: a module with the name and
    docstring of [def] and a function for every entry of its method table. *)
Definition PyModule_Create (def : PyModuleDef) : PyModule :=
  ModuleObject (m_name def) (m_doc def) (before_sentinel (m_methods def)).

Definition PyInit_smaz (smaz_compress smaz_decompress : transform) : PyModule :=
  PyModule_Create (smazmodule smaz_compress smaz_decompress).

(** The function the module has under [name]; of two entries added under one
    name the later one stays. *)
Definition function_of (md : PyModule) (name : string) : option PyMethodDef :=
  snd <$> find (fun entry => String.eqb (fst entry) name) (rev (md_functions md)).

(** * Properties *)

(** ** C integers and strings *)

Example utf8_valid_accepts :
  utf8_valid [x68; x69] = true               (* hi *)
  /\ utf8_valid [xc3; xa9] = true            (* U+00E9 *)
  /\ utf8_valid [xe2; x82; xac] = true       (* U+20AC *)
  /\ utf8_valid [xf0; x9f; x98; x80] = true  (* U+1F600 *).
Proof. repeat split. Qed.

Example utf8_valid_rejects :
  utf8_valid [xff] = false                    (* no such lead byte *)
  /\ utf8_valid [x80] = false                 (* stray continuation *)
  /\ utf8_valid [xc0; x80] = false            (* overlong *)
  /\ utf8_valid [xe2; x82] = false            (* truncated *)
  /\ utf8_valid [xed; xa0; x80] = false       (* surrogate *)
  /\ utf8_valid [xf4; x90; x80; x80] = false  (* beyond U+10FFFF *).
Proof. repeat split. Qed.

Example c_string_examples :
  c_string [x68; x69; x00; x21] = Some [x68; x69]
  /\ c_string [x68; x69] = None
  /\ until_nul [x68; x69; x00; x21] = [x68; x69]
  /\ until_nul [x68; x69] = [x68; x69].
Proof. repeat split. Qed.

Lemma of_size_small z : 0 <= z <= CInt.INT_MAX -> CInt.of_size z = z.
Proof.
  unfold CInt.of_size, CInt.INT_MAX. intros H.
  rewrite Z.mod_small; lia.
Qed.

Lemma in_range_spec z : CInt.in_range z = true <-> CInt.INT_MIN <= z <= CInt.INT_MAX.
Proof. unfold CInt.in_range. rewrite andb_true_iff, !Z.leb_le. tauto. Qed.

Lemma c_string_app s t : has_nul s = false -> c_string (s ++ x00 :: t) = Some s.
Proof.
  induction s as [|b s IH]; simpl; [reflexivity|].
  rewrite orb_false_iff. intros [-> Hs]. now rewrite IH.
Qed.

Lemma c_string_until_nul s t : c_string (s ++ x00 :: t) = Some (until_nul s).
Proof.
  induction s as [|b s IH]; simpl; [reflexivity|].
  destruct (is_nul b); [reflexivity|]. now rewrite IH.
Qed.

Lemma until_nul_id s : has_nul s = false -> until_nul s = s.
Proof.
  induction s as [|b s IH]; simpl; [reflexivity|].
  rewrite orb_false_iff. intros [-> Hs]. now rewrite IH.
Qed.

Lemma until_nul_short s : has_nul s = true -> (length (until_nul s) < length s)%nat.
Proof.
  induction s as [|b s IH]; simpl; [discriminate|].
  destruct (is_nul b); simpl; [lia|]. intros H. apply IH in H. lia.
Qed.

Lemma until_nul_prefix s : until_nul s `prefix_of` s.
Proof.
  induction s as [|b s IH]; simpl; [reflexivity|].
  destruct (is_nul b); [apply prefix_nil|]. now apply prefix_cons.
Qed.

(** ** The monad *)

Lemma bind_unfold {A B} (m : M A) (k : A -> M B) w :
  (m ≫= k) w
  = match m w with
    | Ok a w' => k a w'
    | Fault u w' => Fault u w'
    | Timeout => Timeout
    end.
Proof. reflexivity. Qed.

Lemma strlen_c_string s t w :
  c_string s = Some t -> strlen s w = Ok (Z.of_nat (length t)) w.
Proof. unfold strlen. intros ->. reflexivity. Qed.

(** ** The loops of the source are instances of [sizing_loop] *)

Lemma compress_loop_sizing f input t n size buf code w :
  c_string input = Some t ->
  compress_loop f n input size buf code w
  = sizing_loop realloc f input (CInt.of_size (Z.of_nat (length t))) n size buf code w.
Proof.
  intros Ht. revert size buf code w.
  induction n as [|n IH]; intros size buf code w; [reflexivity|].
  simpl. rewrite !bind_unfold.
  destruct (int_add size 1 w) as [s w1|u w1|]; [|reflexivity..].
  destruct (s =? code); [|reflexivity].
  rewrite !bind_unfold.
  destruct (int_mul size 2 w1) as [s2 w2|u w2|]; [|reflexivity..].
  rewrite !bind_unfold.
  destruct (realloc buf s2 w2) as [b3 w3|u w3|]; [|reflexivity..].
  rewrite !bind_unfold, (strlen_c_string _ _ _ Ht).
  rewrite !bind_unfold.
  destruct (invoke _ _ _ _ _ _) as [c4 w4|u w4|]; [|reflexivity..].
  apply IH.
Qed.

Lemma decompress_loop_sizing f data size0 n size buf code w :
  decompress_loop f n data size0 size buf code w
  = sizing_loop (fun _ => malloc) f data (CInt.of_size size0) n size buf code w.
Proof.
  revert size buf code w.
  induction n as [|n IH]; intros size buf code w; [reflexivity|].
  simpl. rewrite !bind_unfold.
  destruct (int_add size 1 w) as [s w1|u w1|]; [|reflexivity..].
  destruct (s =? code); [|reflexivity].
  rewrite !bind_unfold.
  destruct (int_mul size 2 w1) as [s2 w2|u w2|]; [|reflexivity..].
  rewrite !bind_unfold.
  destruct (malloc s2 w2) as [b3 w3|u w3|]; [|reflexivity..].
  rewrite !bind_unfold.
  destruct (invoke _ _ _ _ _ _) as [c4 w4|u w4|]; [|reflexivity..].
  apply IH.
Qed.

Lemma compress_sizing_sizing f input t w :
  c_string input = Some t ->
  compress_sizing f input w
  = sizing realloc f input (CInt.of_size (Z.of_nat (length t))) w.
Proof.
  intros Ht. unfold compress_sizing, sizing. rewrite !bind_unfold.
  destruct (malloc 4096 w) as [b w1|u w1|]; [|reflexivity..].
  rewrite !bind_unfold, (strlen_c_string _ _ _ Ht). rewrite !bind_unfold.
  destruct (invoke _ _ _ _ _ _) as [c w2|u w2|]; [|reflexivity..].
  now apply compress_loop_sizing.
Qed.

Lemma decompress_sizing_sizing f data size w :
  decompress_sizing f data size w
  = sizing (fun _ => malloc) f data (CInt.of_size size) w.
Proof.
  unfold decompress_sizing, sizing. rewrite !bind_unfold.
  destruct (malloc 4096 w) as [b w1|u w1|]; [|reflexivity..].
  rewrite !bind_unfold.
  destruct (invoke _ _ _ _ _ _) as [c w2|u w2|]; [|reflexivity..].
  apply decompress_loop_sizing.
Qed.

(** ** Every run of the loop is a path of the state machine *)

Lemma malloc_quiet : quiet (fun _ => malloc).
Proof.
  intros p size w. unfold malloc.
  destruct (_ && _); simpl; eexists; split; reflexivity.
Qed.

Lemma malloc_returns size w :
  exists p w', malloc size w = Ok p w' /\ trace w' = trace w ++ [EMalloc size p].
Proof.
  unfold malloc. destruct (_ && _); eexists _, _; split; reflexivity.
Qed.

Lemma realloc_quiet : quiet realloc.
Proof.
  intros p size w. unfold realloc.
  destruct p as [o|].
  - destruct (live w !! o); [|reflexivity].
    destruct (_ && _); simpl; eexists; split; reflexivity.
  - destruct (_ && _); simpl; eexists; split; reflexivity.
Qed.

Lemma invoke_trace f input inlen p outlen w :
  match invoke f input inlen p outlen w with
  | Ok code w' =>
      code = report f input inlen outlen
      /\ trace w' = trace w ++ [EInvoke inlen p outlen]
  | Fault _ w' => trace w' = trace w ++ [EInvoke inlen p outlen]
  | Timeout => False
  end.
Proof.
  unfold invoke, report.
  destruct (f input inlen outlen) as [code st]. simpl.
  destruct st as [|b st]; [now split|].
  destruct p as [id|]; [|reflexivity].
  destruct (live _ !! id); [|reflexivity].
  destruct (Nat.leb _ _); [now split|reflexivity].
Qed.

Lemma int_add_cases a b w :
  (CInt.INT_MIN <= a + b <= CInt.INT_MAX /\ int_add a b w = Ok (a + b) w)
  \/ (~ CInt.INT_MIN <= a + b <= CInt.INT_MAX /\ int_add a b w = Fault SignedOverflow w).
Proof.
  unfold int_add. destruct (CInt.in_range (a + b)) eqn:E.
  - left. split; [now apply in_range_spec|reflexivity].
  - right. split; [|reflexivity]. rewrite <- in_range_spec. congruence.
Qed.

Lemma int_mul_cases a b w :
  (CInt.INT_MIN <= a * b <= CInt.INT_MAX /\ int_mul a b w = Ok (a * b) w)
  \/ (~ CInt.INT_MIN <= a * b <= CInt.INT_MAX /\ int_mul a b w = Fault SignedOverflow w).
Proof.
  unfold int_mul. destruct (CInt.in_range (a * b)) eqn:E.
  - left. split; [now apply in_range_spec|reflexivity].
  - right. split; [|reflexivity]. rewrite <- in_range_spec. congruence.
Qed.

Lemma invoked_with_nil inlen : invoked_with inlen [].
Proof. intros i p outlen []. Qed.

Lemma invoked_with_step inlen e p C evs :
  capacity_of e = None -> invoked_with inlen evs ->
  invoked_with inlen (e :: EInvoke inlen p C :: evs).
Proof.
  intros He Hevs i q outlen [Heq|[Heq|Hin]].
  - subst e. discriminate.
  - now inversion Heq.
  - now apply (Hevs i q outlen).
Qed.

Lemma path_snoc rep s cs C s' :
  path rep s cs (Sizing C) -> step rep (Sizing C) s' -> path rep s (cs ++ [C]) s'.
Proof.
  intros Hp Hs. remember (Sizing C) as t eqn:Et.
  induction Hp as [s|C1 s1 cs1 s2 Hs1 Hp IH]; subst.
  - simpl. eapply path_move; [eassumption|apply path_stay].
  - simpl. eapply path_move; [eassumption|]. now apply IH.
Qed.

(** The run ends here, having added no event. *)
Ltac stopped :=
  exists []; split; [simpl; now rewrite app_nil_r|]; split; [apply invoked_with_nil|].

Lemma invoke_no_overflow f input inlen p outlen w x w' :
  invoke f input inlen p outlen w = Fault x w' -> x <> SignedOverflow.
Proof.
  unfold invoke. destruct (f input inlen outlen) as [code [|b st]]; [discriminate|].
  destruct p as [id|]; [|now intros [= <- _]].
  change (live (log (EInvoke inlen (Some id) outlen) w)) with (live w).
  destruct (live w !! id) as [c|]; [|now intros [= <- _]].
  destruct (_ <=? _)%nat; [discriminate|now intros [= <- _]].
Qed.

Lemma malloc_no_overflow : no_overflow (fun _ => malloc).
Proof. intros p size w x w'. unfold malloc. destruct (_ && _); discriminate. Qed.

Lemma realloc_no_overflow : no_overflow realloc.
Proof.
  intros p size w x w'. unfold realloc. destruct p as [o|].
  - destruct (live w !! o); [|now intros [= <- _]].
    destruct (_ && _); discriminate.
  - destruct (_ && _); discriminate.
Qed.

Section SizingPath.

Variable grow : pointer -> Z -> M pointer.
Variable f : transform.
Variable input : list byte.
Variable inlen : Z.
Hypothesis grow_quiet : quiet grow.
Hypothesis grow_no_overflow : no_overflow grow.

Local Abbreviation rep := (report f input inlen).

Lemma sizing_loop_path n C0 cs C buf w :
  path rep (Sizing C0) cs (Sizing C) ->
  0 < C <= CInt.INT_MAX - 1 ->
  CInt.INT_MAX < C * 2 ^ Z.of_nat n ->
  exists evs,
    events_since w (sizing_loop grow f input inlen n C buf (rep C) w) evs
    /\ invoked_with inlen evs
    /\ follows rep C0 (sizing_loop grow f input inlen n C buf (rep C) w)
         (cs ++ C :: invoked evs).
Proof.
  revert cs C buf w.
  induction n as [|n IH]; intros cs C buf w Hp HC Hn.
  { simpl in Hn. lia. }
  cbn [sizing_loop]. rewrite bind_unfold.
  destruct (int_add_cases C 1 w) as [[Ha ->]|[Ha _]].
  2:{ exfalso. unfold CInt.INT_MAX, CInt.INT_MIN in *. lia. }
  destruct (Z.eqb_spec (C + 1) (rep C)) as [Hsent|Hsent].
  2:{ stopped. simpl. split; [|split].
      - apply path_snoc; [assumption|]. apply step_success. congruence.
      - now rewrite last_snoc.
      - reflexivity. }
  rewrite bind_unfold.
  destruct (int_mul_cases C 2 w) as [[Hm ->]|[Hm ->]].
  2:{ stopped. exists cs, C. split; [reflexivity|]. split; [assumption|].
      intros _. split; [congruence|].
      apply not_true_iff_false. now rewrite in_range_spec. }
  rewrite bind_unfold.
  pose proof (grow_quiet buf (C * 2) w) as Hg.
  destruct (grow buf (C * 2) w) as [buf' w1|u w1|] eqn:Hgrow; [|..|contradiction].
  2:{ stopped. exists cs, C. split; [reflexivity|]. split; [assumption|].
      intros ->. now apply grow_no_overflow in Hgrow. }
  destruct Hg as (e & He & Hq).
  rewrite bind_unfold.
  pose proof (invoke_trace f input inlen buf' (C * 2) w1) as Hi.
  assert (Hstep : path rep (Sizing C0) (cs ++ [C]) (Sizing (C * 2))).
  { apply path_snoc; [assumption|].
    replace (C * 2) with (2 * C) by lia. apply step_overflow. now symmetry. }
  destruct (invoke f input inlen buf' (C * 2) w1) as [code w2|u w2|] eqn:Hcall;
    [|..|contradiction].
  2:{ exists [e; EInvoke inlen buf' (C * 2)]. split; [|split].
      - simpl. rewrite Hi, He, <- app_assoc. reflexivity.
      - apply invoked_with_step; [assumption|apply invoked_with_nil].
      - exists (cs ++ [C]), (C * 2). split; [|split; [assumption|]].
        + unfold invoked. simpl. rewrite Hq. simpl. now rewrite <- app_assoc.
        + intros ->. now apply invoke_no_overflow in Hcall. }
  destruct Hi as [-> Hi].
  destruct (IH (cs ++ [C]) (C * 2) buf' w2 Hstep) as (evs & Hev & Hw & Hf).
  { unfold CInt.INT_MAX, CInt.INT_MIN in *. lia. }
  { rewrite Nat2Z.inj_succ, Z.pow_succ_r in Hn by lia. lia. }
  exists (e :: EInvoke inlen buf' (C * 2) :: evs). split; [|split].
  - destruct (sizing_loop _ _ _ _ _ _ _ _ _) as [r w3|u w3|]; simpl in *;
      [| |exact I]; rewrite Hev, Hi, He, <- !app_assoc; reflexivity.
  - now apply invoked_with_step.
  - replace (cs ++ C :: invoked (e :: EInvoke inlen buf' (C * 2) :: evs))
      with ((cs ++ [C]) ++ C * 2 :: invoked evs); [assumption|].
    unfold invoked. simpl. rewrite Hq. simpl. now rewrite <- app_assoc.
Qed.

Lemma sizing_path w :
  exists evs,
    events_since w (sizing grow f input inlen w) evs
    /\ invoked_with inlen evs
    /\ invoked evs <> []
    /\ follows rep 4096 (sizing grow f input inlen w) (invoked evs).
Proof.
  unfold sizing. rewrite bind_unfold.
  destruct (malloc_returns 4096 w) as (buf & w1 & -> & He).
  set (e := EMalloc 4096 buf) in *.
  rewrite bind_unfold.
  pose proof (invoke_trace f input inlen buf 4096 w1) as Hi.
  destruct (invoke f input inlen buf 4096 w1) as [code w2|u w2|] eqn:Hcall;
    [|..|contradiction].
  2:{ exists [e; EInvoke inlen buf 4096]. split; [|split; [|split]].
      - simpl. rewrite Hi, He, <- app_assoc. reflexivity.
      - apply invoked_with_step; [reflexivity|apply invoked_with_nil].
      - discriminate.
      - exists [], 4096. split; [reflexivity|]. split; [apply path_stay|].
        intros ->. now apply invoke_no_overflow in Hcall. }
  destruct Hi as [-> Hi].
  destruct (sizing_loop_path fuel 4096 [] 4096 buf w2) as (evs & Hev & Hw & Hf).
  { apply path_stay. }
  { unfold CInt.INT_MAX. lia. }
  { unfold CInt.INT_MAX, fuel. simpl. lia. }
  exists (e :: EInvoke inlen buf 4096 :: evs). split; [|split; [|split]].
  - destruct (sizing_loop _ _ _ _ _ _ _ _ _) as [r w3|u w3|]; simpl in *;
      [| |exact I]; rewrite Hev, Hi, He, <- !app_assoc; reflexivity.
  - now apply invoked_with_step.
  - discriminate.
  - replace (invoked (e :: EInvoke inlen buf 4096 :: evs))
      with ([] ++ 4096 :: invoked evs); [assumption|].
    reflexivity.
Qed.

End SizingPath.

(** ** The sizing phase for a codec that honours its contract *)

(** Closes a goal about the [int] range by arithmetic. *)
Ltac int_range := unfold CInt.INT_MAX, CInt.INT_MIN in *; lia.

Lemma fresh_length w id from n : length (fresh w id from n) = n.
Proof. unfold fresh. now rewrite length_map, length_seq. Qed.

Lemma malloc_granted size w :
  0 <= size -> granted w ->
  exists p' w', malloc size w = Ok p' w' /\ holds w' p' size /\ granted w'.
Proof.
  intros Hs Hg. unfold malloc.
  rewrite (Hg (requests w)) by lia.
  destruct (Z.leb_spec 0 size); [|lia]. simpl.
  eexists _, _. split; [reflexivity|]. split.
  - eexists _, _. split; [reflexivity|]. split.
    + simpl. apply lookup_insert_eq.
    + rewrite fresh_length. lia.
  - intros i Hi. simpl in *. apply Hg. lia.
Qed.

Lemma malloc_grows : grows (fun _ => malloc).
Proof. intros p size C w Hs Hg _. now apply malloc_granted. Qed.

Lemma realloc_grows : grows realloc.
Proof.
  intros p size C w Hs Hg (o & c & -> & Hc & Hl). unfold realloc.
  rewrite Hc, (Hg (requests w)) by lia.
  destruct (Z.leb_spec 0 size); [|lia]. simpl.
  eexists _, _. split; [reflexivity|]. split.
  - eexists _, _. split; [reflexivity|]. split.
    + simpl. apply lookup_insert_eq.
    + rewrite length_app, fresh_length, length_take. lia.
  - intros i Hi. simpl in *. apply Hg. lia.
Qed.

Lemma invoke_stores f input inlen id outlen w c code st :
  live w !! id = Some c ->
  f input inlen outlen = (code, st) ->
  (length st <= length c)%nat ->
  exists w',
    invoke f input inlen (Some id) outlen w = Ok code w'
    /\ live w' !! id = Some (st ++ drop (length st) c)
    /\ requests w' = requests w /\ grants w' = grants w.
Proof.
  intros Hc Hf Hl. unfold invoke. rewrite Hf.
  destruct st as [|b st].
  - eexists. split; [reflexivity|]. simpl. rewrite drop_0. now split.
  - change (live (log (EInvoke inlen (Some id) outlen) w)) with (live w).
    rewrite Hc. apply Nat.leb_le in Hl. rewrite Hl.
    eexists. split; [reflexivity|]. simpl. split; [|now split].
    apply lookup_insert_eq.
Qed.

Lemma sizing_loop_S grow f input inlen n size buf code :
  sizing_loop grow f input inlen (S n) size buf code
  = (sentinel ← int_add size 1;
     if sentinel =? code then
       size ← int_mul size 2;
       buf ← grow buf size;
       code ← invoke f input inlen buf size;
       sizing_loop grow f input inlen n size buf code
     else mret (size, buf, code)).
Proof. reflexivity. Qed.

Section SizingFits.

Variable grow : pointer -> Z -> M pointer.
Variable f : transform.
Variable image : list byte -> list byte.
Variable input : list byte.
Variable inlen : Z.
Hypothesis grow_grows : grows grow.
Hypothesis f_honours : honours f image.
Hypothesis inlen_ok : 0 <= inlen <= Z.of_nat (length input).

Local Abbreviation out := (image (take (Z.to_nat inlen) input)).
Local Abbreviation L := (Z.of_nat (length (image (take (Z.to_nat inlen) input)))).

Lemma invoke_honours p C w :
  holds w p C -> granted w ->
  exists code w',
    invoke f input inlen p C w = Ok code w' /\ sized out w' p C code /\ granted w'.
Proof.
  intros (id & c & -> & Hc & Hl) Hg.
  destruct (Z.le_gt_cases L C) as [Hfit|Hover].
  - destruct (fits f image f_honours input inlen C inlen_ok Hfit)
      as (spare & Hf & Hsp).
      destruct (invoke_stores f input inlen id C w c _ _ Hc Hf) as (w' & Hi & Hc' & Hr & Hgr);
      [lia|].
    exists L, w'. split; [assumption|]. split.
    + left. split; [assumption|]. split; [reflexivity|].
      exists id, (out ++ spare ++ drop (length (out ++ spare)) c).
      split; [reflexivity|]. split; [now rewrite app_assoc|]. split.
      * rewrite !length_app, length_drop. rewrite length_app in Hsp. lia.
      * apply take_app_length.
    + intros i Hi'. rewrite Hgr. apply Hg. lia.
  - destruct (overflows f image f_honours input inlen C inlen_ok)
      as (st & Hf & Hst).
    { lia. }
    destruct (invoke_stores f input inlen id C w c _ _ Hc Hf) as (w' & Hi & Hc' & Hr & Hgr);
      [lia|].
    exists (C + 1), w'. split; [assumption|]. split.
    + right. split; [assumption|]. split; [reflexivity|].
      exists id, (st ++ drop (length st) c).
      split; [reflexivity|]. split; [assumption|].
      rewrite length_app, length_drop. lia.
    + intros i Hi'. rewrite Hgr. apply Hg. lia.
Qed.

Lemma sizing_loop_fits m C p code w :
  L <= 2 ^ 30 ->
  0 < C <= CInt.INT_MAX - 1 ->
  L <= C * 2 ^ Z.of_nat m ->
  sized out w p C code -> granted w ->
  exists C' p' w' (k : nat),
    sizing_loop grow f input inlen (S m) C p code w = Ok (C', p', L) w'
    /\ holds_output w' p' C' out /\ granted w'
    /\ C' = C * 2 ^ Z.of_nat k /\ L <= C' /\ (k = 0%nat \/ C' < 2 * L).
Proof.
  intros HL. revert C p code w.
  induction m as [|m IH]; intros C p code w HC Hm Hs Hg;
    rewrite sizing_loop_S, bind_unfold;
    (destruct (int_add_cases C 1 w) as [[Ha ->]|[Ha _]];
      [|int_range]).
  - destruct Hs as [(Hfit & -> & Ho)|(Hover & _ & _)]; [|simpl in Hm; lia].
    destruct (Z.eqb_spec (C + 1) L); [lia|].
    exists C, p, w, 0%nat. simpl. repeat split; try assumption; lia.
  - destruct Hs as [(Hfit & -> & Ho)|(Hover & -> & Ho)].
    + destruct (Z.eqb_spec (C + 1) L); [lia|].
      exists C, p, w, 0%nat. simpl. repeat split; try assumption; lia.
    + rewrite Z.eqb_refl, bind_unfold.
      destruct (int_mul_cases C 2 w) as [[Hmul ->]|[Hmul _]];
        [|int_range].
      rewrite bind_unfold.
      destruct (grow_grows p (C * 2) C w) as (p1 & w1 & -> & Hh1 & Hg1);
        [lia|assumption|assumption|].
      rewrite bind_unfold.
      destruct (invoke_honours p1 (C * 2) w1 Hh1 Hg1) as (code & w2 & -> & Hs2 & Hg2).
      destruct (IH (C * 2) p1 code w2) as (C' & p' & w' & k & Hrun & Ho' & Hg' & HC' & HLC & Hk);
        try assumption.
      { unfold CInt.INT_MAX in *. lia. }
      { rewrite Nat2Z.inj_succ, Z.pow_succ_r in Hm by lia. lia. }
      exists C', p', w', (S k). split; [exact Hrun|].
      split; [assumption|]. split; [assumption|]. split; [|split; [assumption|]].
      * rewrite Nat2Z.inj_succ, Z.pow_succ_r by lia. lia.
      * right. destruct Hk as [->|Hk]; [|assumption]. simpl in HC'. lia.
Qed.

Lemma sizing_fits w :
  L <= 2 ^ 30 -> granted w ->
  exists C' p' w' (k : nat),
    sizing grow f input inlen w = Ok (C', p', L) w'
    /\ holds_output w' p' C' out /\ granted w'
    /\ C' = 4096 * 2 ^ Z.of_nat k /\ L <= C' /\ (k = 0%nat \/ C' < 2 * L).
Proof.
  intros HL Hg. unfold sizing. rewrite bind_unfold.
  destruct (malloc_granted 4096 w) as (p & w1 & -> & Hh & Hg1); [lia|assumption|].
  rewrite bind_unfold.
  destruct (invoke_honours p 4096 w1 Hh Hg1) as (code & w2 & -> & Hs & Hg2).
  apply sizing_loop_fits; try assumption.
  - unfold CInt.INT_MAX. lia.
  - simpl. lia.
Qed.

End SizingFits.

(** The capacity the loop stops at equals the output length exactly when that
    length is one of the capacities. *)
Lemma stops_at_capacity (L C : Z) (k : nat) :
  L <= 2 ^ 30 -> C = 4096 * 2 ^ Z.of_nat k -> L <= C -> (k = 0%nat \/ C < 2 * L) ->
  (L = C <-> is_capacity L = true).
Proof.
  intros HL -> HLC Hk. unfold is_capacity. rewrite existsb_exists.
  assert (Hpow : forall a b : nat, 2 ^ Z.of_nat a < 2 ^ Z.of_nat (S b) -> (a <= b)%nat).
  { intros a b H. apply Z.pow_lt_mono_r_iff in H; lia. }
  split.
  - intros ->. exists k. split; [|apply Z.eqb_refl].
    apply in_seq. split; [lia|].
    assert (k <= 18)%nat; [|lia].
    apply (Hpow k 18%nat). change (2 ^ Z.of_nat 19) with 524288. lia.
  - intros (j & _ & Hj). apply Z.eqb_eq in Hj. subst L.
    assert (j <= k)%nat.
    { apply (Hpow j k). rewrite (Nat2Z.inj_succ k), Z.pow_succ_r by lia.
      assert (0 < 2 ^ Z.of_nat k) by (apply Z.pow_pos_nonneg; lia). lia. }
    destruct Hk as [->|Hk].
    + replace j with 0%nat by lia. reflexivity.
    + assert (k <= j)%nat.
      { apply (Hpow k j). rewrite (Nat2Z.inj_succ j), Z.pow_succ_r by lia. lia. }
      replace j with k by lia. reflexivity.
Qed.

(** ** Building the result *)

Lemma compress_result_bytes w id c L :
  live w !! id = Some c ->
  0 <= L <= Z.of_nat (length c) ->
  compress_result (Some id) L w
  = Ok (PyReturn (PyBytes (take (Z.to_nat L) c)))
       (log (EFree (Some id)) (set_live (delete id) w)).
Proof.
  intros Hc HL. unfold compress_result, Py_BuildValue_y_hash.
  rewrite bind_unfold, Hc. unfold read.
  destruct (Z.ltb_spec L 0); [lia|].
  destruct (Z.leb_spec L (Z.of_nat (length c))); [|lia].
  rewrite bind_unfold. unfold free. now rewrite Hc.
Qed.

Lemma c_string_terminated (n : nat) (c : list byte) :
  (n < length c)%nat -> c_string (<[n := x00]> c) = Some (until_nul (take n c)).
Proof.
  revert c. induction n as [|n IH]; intros [|b c] Hn; simpl in Hn; try lia.
  - reflexivity.
  - simpl. destruct (is_nul b); [reflexivity|].
    rewrite IH by lia. reflexivity.
Qed.

Lemma decompress_result_text w id c L :
  live w !! id = Some c ->
  0 <= L < Z.of_nat (length c) ->
  decompress_result (Some id) L w
  = Ok (text_of (take (Z.to_nat L) c))
       (log (EFree (Some id)) (set_live (delete id) w)).
Proof.
  intros Hc HL. unfold decompress_result, store.
  rewrite bind_unfold, Hc.
  destruct (Z.leb_spec 0 L); [|lia].
  destruct (Z.ltb_spec L (Z.of_nat (length c))); [|lia].
  simpl. rewrite bind_unfold. unfold Py_BuildValue_s. simpl.
  rewrite lookup_insert_eq, c_string_terminated by lia.
  unfold text_of.
  destruct (utf8_valid _); rewrite bind_unfold; unfold free; simpl;
    rewrite lookup_insert_eq; simpl; unfold log, set_live; simpl;
    rewrite delete_insert_eq; reflexivity.
Qed.

Lemma decompress_result_overrun w id c L :
  live w !! id = Some c ->
  Z.of_nat (length c) <= L ->
  decompress_result (Some id) L w = Fault OutOfBounds w.
Proof.
  intros Hc HL. unfold decompress_result, store.
  rewrite bind_unfold, Hc.
  destruct (Z.ltb_spec L (Z.of_nat (length c))); [lia|].
  now rewrite andb_false_r.
Qed.

(** ** The entry points on well-shaped arguments *)

Lemma py_smaz_compress_str f u w :
  has_nul u = false ->
  py_smaz_compress f [PyUnicode u] w
  = ('(_, output_buffer, compressed_size) ←
       sizing realloc f (u ++ [x00]) (CInt.of_size (Z.of_nat (length u)));
     compress_result output_buffer compressed_size) w.
Proof.
  intros Hu. unfold py_smaz_compress, PyArg_ParseTuple_s. rewrite Hu.
  rewrite !bind_unfold.
  now rewrite (compress_sizing_sizing f (u ++ [x00]) u w (c_string_app u [] Hu)).
Qed.

Lemma py_smaz_decompress_bytes f d w :
  py_smaz_decompress f [PyBytes d] w
  = ('(_, output_buffer, decompressed_size) ←
       sizing (fun _ => malloc) f (d ++ [x00]) (CInt.of_size (Z.of_nat (length d)));
     decompress_result output_buffer decompressed_size) w.
Proof.
  unfold py_smaz_decompress, PyArg_ParseTuple_y_hash.
  rewrite !bind_unfold. now rewrite decompress_sizing_sizing.
Qed.

Lemma granted_log e w : granted w -> granted (log e w).
Proof. intros H i Hi. apply (H i Hi). Qed.

Lemma granted_set_live g w : granted w -> granted (set_live g w).
Proof. intros H i Hi. apply (H i Hi). Qed.

Section EndToEnd.

Variable f : transform.
Variable image : list byte -> list byte.
Hypothesis f_honours : honours f image.

Lemma compress_correct u w :
  has_nul u = false ->
  Z.of_nat (length u) <= CInt.INT_MAX ->
  Z.of_nat (length (image u)) <= 2 ^ 30 ->
  granted w ->
  exists w',
    py_smaz_compress f [PyUnicode u] w = Ok (PyReturn (PyBytes (image u))) w'
    /\ granted w'.
Proof.
  intros Hu Hlen HL Hg.
  rewrite py_smaz_compress_str, bind_unfold by assumption.
  rewrite of_size_small by lia.
  destruct (sizing_fits realloc f image (u ++ [x00]) (Z.of_nat (length u))
              realloc_grows f_honours) with (w := w)
    as (C & p & w1 & k & -> & (id & c & -> & Hc & Hcl & Hout) & Hg1 & _ & HLC & _);
    rewrite ?Nat2Z.id, ?take_app_length, ?length_app; try assumption; try lia.
  rewrite Nat2Z.id, take_app_length in Hout, HLC.
  rewrite (compress_result_bytes w1 id c) by (assumption || lia).
  rewrite Nat2Z.id, Hout.
  eexists. split; [reflexivity|].
  now apply granted_log, granted_set_live.
Qed.

Lemma decompress_correct d w :
  Z.of_nat (length d) <= CInt.INT_MAX ->
  Z.of_nat (length (image d)) <= 2 ^ 30 ->
  granted w ->
  exists w',
    py_smaz_decompress f [PyBytes d] w
    = (if is_capacity (Z.of_nat (length (image d))) then Fault OutOfBounds w'
       else Ok (text_of (image d)) w')
    /\ granted w'.
Proof.
  intros Hlen HL Hg.
  rewrite py_smaz_decompress_bytes, bind_unfold.
  rewrite of_size_small by lia.
  destruct (sizing_fits (fun _ => malloc) f image (d ++ [x00]) (Z.of_nat (length d))
              malloc_grows f_honours) with (w := w)
    as (C & p & w1 & k & -> & (id & c & -> & Hc & Hcl & Hout) & Hg1 & HC & HLC & Hk);
    rewrite ?Nat2Z.id, ?take_app_length, ?length_app; try assumption; try lia.
  rewrite Nat2Z.id, take_app_length in Hout, HLC, Hk.
  pose proof (stops_at_capacity _ C k HL HC HLC Hk) as Hcap.
  destruct (is_capacity _).
  - rewrite (decompress_result_overrun w1 id c) by (assumption || lia).
    now exists w1.
  - assert (Z.of_nat (length (image d)) <> C) by (intros E; apply Hcap in E; discriminate).
    rewrite (decompress_result_text w1 id c) by (assumption || lia).
    rewrite Nat2Z.id, Hout.
    eexists. split; [reflexivity|].
    now apply granted_log, granted_set_live.
Qed.

End EndToEnd.

(** ** The stand-in codec honours the contract *)

Lemma verbatim_honours : honours verbatim (fun s => s).
Proof.
  split; intros input inlen outlen Hin Hout; unfold verbatim.
  - destruct (Z.leb_spec (Z.of_nat (length (take (Z.to_nat inlen) input))) outlen); [|lia].
    exists []. rewrite app_nil_r. now split.
  - destruct (Z.leb_spec (Z.of_nat (length (take (Z.to_nat inlen) input))) outlen); [lia|].
    eexists. split; [reflexivity|]. rewrite length_take. lia.
Qed.

Lemma plenty_granted : granted plenty.
Proof. intros i _. reflexivity. Qed.

(** ** Facts about the result phases, the events and refused allocations *)

Lemma events_since_bind {A B} (m : M A) (k : A -> M B) w evs :
  events_since w (m w) evs ->
  (forall a w1, m w = Ok a w1 ->
     exists evs', events_since w1 (k a w1) evs'
                  /\ forall e, In e evs' -> capacity_of e = None) ->
  exists evs', events_since w ((m ≫= k) w) (evs ++ evs')
               /\ forall e, In e evs' -> capacity_of e = None.
Proof.
  intros Hm Hk. rewrite bind_unfold.
  destruct (m w) as [a w1|u w1|].
  - destruct (Hk a w1 eq_refl) as (evs' & Hev & Hq). exists evs'. split; [|assumption].
    destruct (k a w1) as [b w2|u w2|]; simpl in *; try exact I;
      rewrite Hev, Hm; now rewrite app_assoc.
  - exists []. split; [|intros e []]. simpl in *. now rewrite app_nil_r.
  - exists []. split; [exact I|intros e []].
Qed.

Lemma compress_result_events p L w :
  exists evs, events_since w (compress_result p L w) evs
              /\ forall e, In e evs -> capacity_of e = None.
Proof.
  unfold compress_result, Py_BuildValue_y_hash, free. rewrite bind_unfold.
  destruct p as [id|].
  - destruct (live w !! id) eqn:Hc; [|exists []; split; [simpl; now rewrite app_nil_r|intros e []]].
    destruct (read l L); [|exists []; split; [simpl; now rewrite app_nil_r|intros e []]].
    rewrite bind_unfold, Hc. exists [EFree (Some id)]. split; [reflexivity|].
    intros e [<-|[]]. reflexivity.
  - rewrite bind_unfold. exists [EFree None]. split; [reflexivity|].
    intros e [<-|[]]. reflexivity.
Qed.

Lemma invoked_app_quiet evs evs' :
  (forall e, In e evs' -> capacity_of e = None) -> invoked (evs ++ evs') = invoked evs.
Proof.
  intros H. unfold invoked. rewrite omap_app.
  replace (omap capacity_of evs') with (@nil Z); [now rewrite app_nil_r|].
  induction evs' as [|e evs' IH]; [reflexivity|].
  simpl. rewrite (H e) by now left. apply IH. intros e' He'. apply H. now right.
Qed.

Lemma invoked_with_app_quiet inlen evs evs' :
  invoked_with inlen evs -> (forall e, In e evs' -> capacity_of e = None) ->
  invoked_with inlen (evs ++ evs').
Proof.
  intros H Hq i p outlen Hin. apply in_app_or in Hin as [Hin|Hin].
  - now apply (H i p outlen).
  - apply Hq in Hin. discriminate.
Qed.

Lemma decompress_result_outside w id c L :
  live w !! id = Some c ->
  ~ 0 <= L < Z.of_nat (length c) ->
  decompress_result (Some id) L w = Fault OutOfBounds w.
Proof.
  intros Hc HL. unfold decompress_result, store.
  rewrite bind_unfold, Hc.
  destruct (Z.leb_spec 0 L); destruct (Z.ltb_spec L (Z.of_nat (length c)));
    try reflexivity. lia.
Qed.

Lemma decompress_result_returns p L w r w' :
  decompress_result p L w = Ok r w' ->
  exists id c,
    p = Some id /\ live w !! id = Some c /\ 0 <= L < Z.of_nat (length c)
    /\ r = text_of (take (Z.to_nat L) c).
Proof.
  intros H. destruct p as [id|]; [|discriminate].
  destruct (live w !! id) as [c|] eqn:Hc.
  - destruct (Z.le_gt_cases 0 L); [destruct (Z.lt_ge_cases L (Z.of_nat (length c)))|].
    + rewrite (decompress_result_text w id c) in H by (assumption || lia).
      injection H as <- _. now exists id, c.
    + rewrite (decompress_result_outside w id c) in H by (assumption || lia). discriminate.
    + rewrite (decompress_result_outside w id c) in H by (assumption || lia). discriminate.
  - unfold decompress_result, store in H. rewrite bind_unfold, Hc in H. discriminate.
Qed.

Lemma parse_s_error fname args e :
  PyArg_ParseTuple_s fname args = inl e -> e <> MemoryError.
Proof.
  unfold PyArg_ParseTuple_s.
  destruct args as [|[] [|]]; try (intros [= <-]; discriminate).
  destruct (has_nul utf8); intros [= <-]; discriminate.
Qed.

Lemma parse_y_hash_error fname args e :
  PyArg_ParseTuple_y_hash fname args = inl e -> e <> MemoryError.
Proof.
  unfold PyArg_ParseTuple_y_hash.
  destruct args as [|[] [|]]; intros [= <-]; discriminate.
Qed.

Lemma compress_result_value p L w r w' :
  compress_result p L w = Ok r w' -> exists v, r = PyReturn v.
Proof.
  unfold compress_result, Py_BuildValue_y_hash, free. rewrite bind_unfold.
  destruct p as [id|].
  - destruct (live w !! id) eqn:Hc; [|discriminate].
    destruct (read l L); [|discriminate].
    rewrite bind_unfold, Hc. intros [= <- _]. now eexists.
  - rewrite bind_unfold. intros [= <- _]. now eexists.
Qed.

Lemma invoke_null f input inlen outlen w :
  snd (f input inlen outlen) <> [] ->
  invoke f input inlen None outlen w
  = Fault NullDereference (log (EInvoke inlen None outlen) w).
Proof.
  unfold invoke. destruct (f input inlen outlen) as [code [|b st]]; [now intros []|].
  reflexivity.
Qed.

Lemma malloc_refused size w :
  grants w (requests w) = false ->
  malloc size w = Ok None (log (EMalloc size None) (next_request w)).
Proof. unfold malloc. intros ->. now rewrite andb_false_r. Qed.

Lemma realloc_refused id c size w :
  live w !! id = Some c ->
  grants w (requests w) = false ->
  realloc (Some id) size w
  = Ok None (log (ERealloc (Some id) size None) (next_request w)).
Proof. unfold realloc. intros -> ->. now rewrite andb_false_r. Qed.

(** ** The rounds of the sizing phase *)

Lemma capacities_shift C m :
  map (fun k => C * 2 * 2 ^ Z.of_nat k) (seq 1 m)
  = map (fun k => C * 2 ^ Z.of_nat k) (seq 2 m).
Proof.
  rewrite <- (seq_shift m 1), map_map. apply map_ext. intros k.
  rewrite Nat2Z.inj_succ, Z.pow_succ_r by lia. lia.
Qed.

Lemma decompress_result_events p L w :
  exists evs, events_since w (decompress_result p L w) evs
              /\ forall e, In e evs -> capacity_of e = None.
Proof.
  destruct (decompress_result p L w) as [r w'|u w'|] eqn:H.
  - apply decompress_result_returns in H as H'. destruct H' as (id & c & -> & Hc & HL & _).
    rewrite (decompress_result_text w id c) in H by assumption.
    injection H as _ <-. exists [EFree (Some id)]. split; [reflexivity|].
    intros e [<-|[]]. reflexivity.
  - exists []. split; [|intros e []]. simpl. rewrite app_nil_r.
    unfold decompress_result, store in H. rewrite bind_unfold in H.
    destruct p as [id|]; [|now injection H as _ <-].
    destruct (live w !! id) as [c|] eqn:Hc; [|now injection H as _ <-].
    destruct (_ && _); [|now injection H as _ <-].
    rewrite bind_unfold in H. unfold Py_BuildValue_s in H. simpl in H.
    rewrite lookup_insert_eq in H.
    destruct (c_string _); [|now injection H as _ <-].
    destruct (utf8_valid _); rewrite bind_unfold in H; unfold free in H; simpl in H;
      rewrite lookup_insert_eq in H; discriminate.
  - exists []. split; [exact I|intros e []].
Qed.

Lemma invoked_round e inlen p C evs :
  capacity_of e = None -> invoked (e :: EInvoke inlen p C :: evs) = C :: invoked evs.
Proof. intros He. unfold invoked. simpl. now rewrite He. Qed.

Section Rounds.

Variable grow : pointer -> Z -> M pointer.
Variable f : transform.
Variable input : list byte.
Variable inlen : Z.
Hypothesis grow_quiet : quiet grow.

Lemma sizing_loop_rounds n C buf code w :
  0 < C <= CInt.INT_MAX ->
  exists evs (m : nat),
    events_since w (sizing_loop grow f input inlen n C buf code w) evs
    /\ invoked evs = map (fun k => C * 2 ^ Z.of_nat k) (seq 1 m)
    /\ C * 2 ^ Z.of_nat m <= CInt.INT_MAX.
Proof.
  revert C buf code w.
  induction n as [|n IH]; intros C buf code w HC.
  { exists [], 0%nat. simpl. split; [exact I|]. split; [reflexivity|lia]. }
  assert (Hnone : forall o : outcome (Z * pointer * Z),
            match o with Ok _ w' | Fault _ w' => w' = w | Timeout => True end ->
            exists evs (m : nat),
              events_since w o evs
              /\ invoked evs = map (fun k => C * 2 ^ Z.of_nat k) (seq 1 m)
              /\ C * 2 ^ Z.of_nat m <= CInt.INT_MAX).
  { intros o Ho. exists [], 0%nat. split; [|split; [reflexivity|simpl; lia]].
    destruct o; simpl in *; subst; try exact I; now rewrite app_nil_r. }
  rewrite sizing_loop_S, bind_unfold.
  destruct (int_add_cases C 1 w) as [[Ha ->]|[Ha ->]]; [|now apply Hnone].
  destruct (Z.eqb_spec (C + 1) code) as [Hsent|Hsent]; [|now apply Hnone].
  rewrite bind_unfold.
  destruct (int_mul_cases C 2 w) as [[Hm ->]|[Hm ->]]; [|now apply Hnone].
  rewrite bind_unfold.
  pose proof (grow_quiet buf (C * 2) w) as Hg.
  destruct (grow buf (C * 2) w) as [buf' w1|u w1|]; [|..|contradiction].
  2:{ exists [], 0%nat. simpl. rewrite app_nil_r. split; [assumption|].
      split; [reflexivity|lia]. }
  destruct Hg as (e & He & Hq).
  rewrite bind_unfold.
  pose proof (invoke_trace f input inlen buf' (C * 2) w1) as Hi.
  destruct (invoke f input inlen buf' (C * 2) w1) as [code' w2|u w2|];
    [|..|contradiction].
  2:{ exists [e; EInvoke inlen buf' (C * 2)], 1%nat. split; [|split].
      - simpl. rewrite Hi, He, <- app_assoc. reflexivity.
      - rewrite invoked_round by assumption. simpl. f_equal; lia.
      - simpl. lia. }
  destruct Hi as [_ Hi].
  destruct (IH (C * 2) buf' code' w2) as (evs & m & Hev & Hinv & Hmax); [int_range|].
  exists (e :: EInvoke inlen buf' (C * 2) :: evs), (S m). split; [|split].
  - destruct (sizing_loop _ _ _ _ _ _ _ _ _) as [r w3|u w3|]; simpl in *;
      [| |exact I]; rewrite Hev, Hi, He, <- !app_assoc; reflexivity.
  - rewrite invoked_round, Hinv, capacities_shift by assumption.
    cbn [seq map]. reflexivity.
  - rewrite Nat2Z.inj_succ, Z.pow_succ_r by lia. lia.
Qed.

Lemma sizing_rounds w :
  exists evs (n : nat),
    events_since w (sizing grow f input inlen w) evs
    /\ invoked evs = capacities n /\ (n <= 19)%nat.
Proof.
  unfold sizing. rewrite bind_unfold.
  destruct (malloc_returns 4096 w) as (buf & w1 & -> & He).
  rewrite bind_unfold.
  pose proof (invoke_trace f input inlen buf 4096 w1) as Hi.
  destruct (invoke f input inlen buf 4096 w1) as [code w2|u w2|];
    [|..|contradiction].
  2:{ exists [EMalloc 4096 buf; EInvoke inlen buf 4096], 1%nat. split; [|split].
      - simpl. rewrite Hi, He, <- app_assoc. reflexivity.
      - reflexivity.
      - lia. }
  destruct Hi as [_ Hi].
  destruct (sizing_loop_rounds fuel 4096 buf code w2) as (evs & m & Hev & Hinv & Hmax);
    [int_range|].
  assert (m <= 18)%nat.
  { destruct (Nat.le_gt_cases m 18) as [|Hbig]; [assumption|exfalso].
    assert (2 ^ 19 <= 2 ^ Z.of_nat m) by (apply Z.pow_le_mono_r; lia).
    unfold CInt.INT_MAX in Hmax. lia. }
  exists (EMalloc 4096 buf :: EInvoke inlen buf 4096 :: evs), (S m). split; [|split].
  - destruct (sizing_loop _ _ _ _ _ _ _ _ _) as [r w3|u w3|]; simpl in *;
      [| |exact I]; rewrite Hev, Hi, He, <- !app_assoc; reflexivity.
  - rewrite invoked_round, Hinv by reflexivity. reflexivity.
  - lia.
Qed.

End Rounds.

Lemma sizing_ends grow f input inlen w :
  quiet grow -> no_overflow grow -> sizing grow f input inlen w <> Timeout.
Proof.
  intros Hq Hs H.
  destruct (sizing_path grow f input inlen Hq Hs w) as (evs & _ & _ & _ & Hf).
  now rewrite H in Hf.
Qed.

Lemma compress_result_ends p L w : compress_result p L w <> Timeout.
Proof.
  unfold compress_result, Py_BuildValue_y_hash, free. rewrite bind_unfold.
  destruct p as [id|].
  - destruct (live w !! id) eqn:Hc; [|discriminate].
    destruct (read l L); [|discriminate].
    rewrite bind_unfold, Hc. discriminate.
  - rewrite bind_unfold. discriminate.
Qed.

Lemma decompress_result_ends p L w : decompress_result p L w <> Timeout.
Proof.
  intros H. destruct p as [id|]; [|discriminate].
  destruct (live w !! id) as [c|] eqn:Hc.
  - destruct (Z.le_gt_cases 0 L); [destruct (Z.lt_ge_cases L (Z.of_nat (length c)))|].
    + rewrite (decompress_result_text w id c) in H by (assumption || lia). discriminate.
    + rewrite (decompress_result_outside w id c) in H by (assumption || lia). discriminate.
    + rewrite (decompress_result_outside w id c) in H by (assumption || lia). discriminate.
  - unfold decompress_result, store in H. rewrite bind_unfold, Hc in H. discriminate.
Qed.

Lemma py_smaz_compress_ends f args w : py_smaz_compress f args w <> Timeout.
Proof.
  unfold py_smaz_compress.
  destruct (PyArg_ParseTuple_s "compress" args) as [e|input] eqn:Hp; [discriminate|].
  assert (Ht : exists t, c_string input = Some t).
  { unfold PyArg_ParseTuple_s in Hp.
    destruct args as [|[] [|]]; try discriminate.
    destruct (has_nul utf8) eqn:Hn; [discriminate|]. injection Hp as <-.
    exists utf8. now apply c_string_app. }
  destruct Ht as [t Ht].
  rewrite bind_unfold, (compress_sizing_sizing f input t w Ht).
  pose proof (sizing_ends realloc f input (CInt.of_size (Z.of_nat (length t))) w
                realloc_quiet realloc_no_overflow) as Hs.
  destruct (sizing _ _ _ _ w) as [[[C p] L] w1|u w1|]; [|discriminate|congruence].
  apply compress_result_ends.
Qed.

Lemma py_smaz_decompress_ends f args w : py_smaz_decompress f args w <> Timeout.
Proof.
  unfold py_smaz_decompress.
  destruct (PyArg_ParseTuple_y_hash "decompress" args) as [e|[data size]];
    [discriminate|].
  rewrite bind_unfold, decompress_sizing_sizing.
  pose proof (sizing_ends (fun _ => malloc) f data (CInt.of_size size) w malloc_quiet
                malloc_no_overflow) as Hs.
  destruct (sizing _ _ _ _ w) as [[[C p] L] w1|u w1|]; [|discriminate|congruence].
  apply decompress_result_ends.
Qed.

(** ** A codec that never fits *)

Section Runaway.

Variable grow : pointer -> Z -> M pointer.
Variable f : transform.
Variable input : list byte.
Variable inlen : Z.
Hypothesis grow_grows : grows grow.
Hypothesis f_never_fits : never_fits f input inlen.

Lemma capacity_bounds (k : nat) :
  (k <= 18)%nat -> 4096 <= 4096 * 2 ^ Z.of_nat k <= 2 ^ 30.
Proof.
  intros Hk.
  assert (0 < 2 ^ Z.of_nat k) by (apply Z.pow_pos_nonneg; lia).
  assert (2 ^ Z.of_nat k <= 2 ^ 18) by (apply Z.pow_le_mono_r; lia).
  lia.
Qed.

Lemma invoke_never_fits (k : nat) p w :
  (k <= 18)%nat -> holds w p (4096 * 2 ^ Z.of_nat k) -> granted w ->
  exists w',
    invoke f input inlen p (4096 * 2 ^ Z.of_nat k) w = Ok (4096 * 2 ^ Z.of_nat k + 1) w'
    /\ holds w' p (4096 * 2 ^ Z.of_nat k) /\ granted w'.
Proof.
  intros Hk (id & c & -> & Hc & Hl) Hg.
  destruct (f_never_fits k Hk) as (st & Hf & Hst).
  destruct (invoke_stores f input inlen id _ w c _ _ Hc Hf) as (w' & Hi & Hc' & Hr & Hgr);
    [lia|].
  exists w'. split; [assumption|]. split.
  - exists id, (st ++ drop (length st) c). split; [reflexivity|]. split; [assumption|].
    rewrite length_app, length_drop. lia.
  - intros i Hi'. rewrite Hgr. apply Hg. lia.
Qed.

Lemma sizing_loop_runaway n (k : nat) p w :
  (k <= 18)%nat -> (19 - k <= n)%nat ->
  holds w p (4096 * 2 ^ Z.of_nat k) -> granted w ->
  faults (sizing_loop grow f input inlen n (4096 * 2 ^ Z.of_nat k) p
            (4096 * 2 ^ Z.of_nat k + 1) w) SignedOverflow.
Proof.
  revert k p w. induction n as [|n IH]; intros k p w Hk Hn Hh Hg; [lia|].
  pose proof (capacity_bounds k Hk) as HC.
  rewrite sizing_loop_S, bind_unfold.
  destruct (int_add_cases (4096 * 2 ^ Z.of_nat k) 1 w) as [[_ ->]|[Ha _]]; [|int_range].
  rewrite Z.eqb_refl, bind_unfold.
  destruct (int_mul_cases (4096 * 2 ^ Z.of_nat k) 2 w) as [[Hm ->]|[Hm ->]];
    [|now exists w].
  assert (Hk' : (S k <= 18)%nat).
  { destruct (Nat.eq_dec k 18%nat) as [->|]; [|lia].
    exfalso. change (4096 * 2 ^ Z.of_nat 18 * 2) with (2 ^ 31) in Hm. int_range. }
  assert (Hdouble : 4096 * 2 ^ Z.of_nat k * 2 = 4096 * 2 ^ Z.of_nat (S k)).
  { rewrite Nat2Z.inj_succ, Z.pow_succ_r by lia. lia. }
  rewrite Hdouble, bind_unfold.
  destruct (grow_grows p (4096 * 2 ^ Z.of_nat (S k)) (4096 * 2 ^ Z.of_nat k) w)
    as (p1 & w1 & -> & Hh1 & Hg1);
    [pose proof (capacity_bounds (S k) Hk'); lia|assumption|assumption|].
  rewrite bind_unfold.
  destruct (invoke_never_fits (S k) p1 w1 Hk' Hh1 Hg1) as (w2 & -> & Hh2 & Hg2).
  apply IH; [assumption|lia|assumption..].
Qed.

Lemma sizing_runaway w :
  granted w -> faults (sizing grow f input inlen w) SignedOverflow.
Proof.
  intros Hg. unfold sizing. rewrite bind_unfold.
  destruct (malloc_granted 4096 w) as (p & w1 & -> & Hh & Hg1); [lia|assumption|].
  rewrite bind_unfold.
  destruct (invoke_never_fits 0 p w1) as (w2 & Hi & Hh2 & Hg2); [lia|assumption..|].
  pose proof (sizing_loop_runaway fuel 0 p w2) as Hloop.
  change (4096 * 2 ^ Z.of_nat 0) with 4096 in Hi, Hh2, Hloop.
  rewrite Hi. apply Hloop; [lia|unfold fuel; lia|assumption..].
Qed.

End Runaway.

Lemma insatiable_never_fits input inlen : never_fits insatiable input inlen.
Proof.
  intros k Hk. exists []. split; [reflexivity|].
  pose proof (capacity_bounds k Hk). simpl. lia.
Qed.

(** ** The sizing phase when no call of the codec goes wrong *)

Section Progress.

Variable grow : pointer -> Z -> M pointer.
Variable f : transform.
Variable input : list byte.
Variable inlen : Z.
Hypothesis grow_grows : grows grow.
Hypothesis f_within : within_room f input inlen.

Local Abbreviation rep := (report f input inlen).

Lemma invoke_within p C w :
  0 <= C -> holds w p C -> granted w ->
  exists w', invoke f input inlen p C w = Ok (rep C) w' /\ holds w' p C /\ granted w'.
Proof.
  intros HC (id & c & -> & Hc & Hl) Hg.
  pose proof (f_within C HC) as Hst. unfold report.
  destruct (f input inlen C) as [code st] eqn:Hf. simpl in *.
  destruct (invoke_stores f input inlen id C w c code st Hc Hf)
    as (w' & Hi & Hc' & Hr & Hgr); [lia|].
  exists w'. split; [assumption|]. split.
  - exists id, (st ++ drop (length st) c). split; [reflexivity|]. split; [assumption|].
    rewrite length_app, length_drop. lia.
  - intros i Hi'. rewrite Hgr. apply Hg. lia.
Qed.

Lemma sizing_loop_progress (k : nat) : forall n C p w,
  (k < n)%nat -> 0 < C -> C * 2 ^ Z.of_nat k <= 2 ^ 30 ->
  holds w p C -> granted w ->
  (forall j : nat, (j < k)%nat -> rep (C * 2 ^ Z.of_nat j) = C * 2 ^ Z.of_nat j + 1) ->
  rep (C * 2 ^ Z.of_nat k) <> C * 2 ^ Z.of_nat k + 1 ->
  exists p' w',
    sizing_loop grow f input inlen n C p (rep C) w
    = Ok (C * 2 ^ Z.of_nat k, p', rep (C * 2 ^ Z.of_nat k)) w'.
Proof.
  induction k as [|k IH]; intros n C p w Hn HC Hmax Hh Hg Hsent Hfit;
    (destruct n as [|n]; [lia|]); rewrite sizing_loop_S, bind_unfold.
  - change (2 ^ Z.of_nat 0) with 1 in *. rewrite Z.mul_1_r in *.
    destruct (int_add_cases C 1 w) as [[_ ->]|[Ha _]]; [|int_range].
    destruct (Z.eqb_spec (C + 1) (rep C)) as [E|_]; [congruence|].
    now exists p, w.
  - assert (Hpow : 0 < 2 ^ Z.of_nat k) by (apply Z.pow_pos_nonneg; lia).
    assert (Hshift : forall j : nat, C * 2 ^ Z.of_nat (S j) = C * 2 * 2 ^ Z.of_nat j).
    { intros j. rewrite Nat2Z.inj_succ, Z.pow_succ_r by lia. lia. }
    rewrite Hshift in Hmax, Hfit |- *.
    assert (HC2 : C * 2 <= 2 ^ 30) by nia.
    pose proof (Hsent 0%nat ltac:(lia)) as H0.
    change (2 ^ Z.of_nat 0) with 1 in H0. rewrite Z.mul_1_r in H0.
    destruct (int_add_cases C 1 w) as [[_ ->]|[Ha _]]; [|int_range].
    rewrite H0, Z.eqb_refl, bind_unfold.
    destruct (int_mul_cases C 2 w) as [[_ ->]|[Hm _]]; [|int_range].
    rewrite bind_unfold.
    destruct (grow_grows p (C * 2) C w) as (p1 & w1 & -> & Hh1 & Hg1);
      [lia|assumption..|].
    rewrite bind_unfold.
    destruct (invoke_within p1 (C * 2) w1) as (w2 & -> & Hh2 & Hg2);
      [lia|assumption..|].
    apply IH; try assumption; try lia.
    intros j Hj. rewrite <- Hshift. apply Hsent. lia.
Qed.

Lemma sizing_progress (k : nat) w :
  (k <= 18)%nat -> granted w -> first_fit rep k ->
  exists p w',
    sizing grow f input inlen w
    = Ok (4096 * 2 ^ Z.of_nat k, p, rep (4096 * 2 ^ Z.of_nat k)) w'.
Proof.
  intros Hk Hg [Hsent Hfit]. unfold sizing. rewrite bind_unfold.
  destruct (malloc_granted 4096 w) as (p & w1 & -> & Hh & Hg1); [lia|assumption|].
  rewrite bind_unfold.
  destruct (invoke_within p 4096 w1) as (w2 & -> & Hh2 & Hg2); [lia|assumption..|].
  apply sizing_loop_progress; try assumption.
  - unfold fuel. lia.
  - lia.
  - apply capacity_bounds. exact Hk.
Qed.

Lemma within_never_fits :
  (forall k : nat, (k <= 18)%nat -> rep (4096 * 2 ^ Z.of_nat k) = 4096 * 2 ^ Z.of_nat k + 1) ->
  never_fits f input inlen.
Proof.
  intros Hsent k Hk. specialize (Hsent k Hk). unfold report in Hsent.
  pose proof (f_within (4096 * 2 ^ Z.of_nat k)) as Hst.
  destruct (f input inlen (4096 * 2 ^ Z.of_nat k)) as [code st]. simpl in *.
  exists st. split; [now rewrite Hsent|].
  apply Hst. pose proof (capacity_bounds k Hk). lia.
Qed.

End Progress.

Lemma verbatim_within input inlen : within_room verbatim input inlen.
Proof.
  intros C HC. unfold verbatim.
  destruct (Z.leb_spec (Z.of_nat (length (take (Z.to_nat inlen) input))) C); simpl.
  - assumption.
  - rewrite length_take. lia.
Qed.

Lemma insatiable_within input inlen : within_room insatiable input inlen.
Proof. intros C HC. simpl. lia. Qed.

Lemma capacities_below (n : nat) (C : Z) :
  (n <= 19)%nat -> In C (capacities n) -> C <= 2 ^ 30.
Proof.
  intros Hn HC. unfold capacities in HC. apply in_map_iff in HC as (k & <- & Hk).
  apply in_seq in Hk. apply capacity_bounds. lia.
Qed.

(** ** Lengths beyond [INT_MAX] *)

Lemma sizing_first grow f input inlen w :
  quiet grow ->
  exists p evs,
    events_since w (sizing grow f input inlen w)
      (EMalloc 4096 p :: EInvoke inlen p 4096 :: evs).
Proof.
  intros Hq. unfold sizing. rewrite bind_unfold.
  destruct (malloc_returns 4096 w) as (buf & w1 & -> & He).
  rewrite bind_unfold. exists buf.
  pose proof (invoke_trace f input inlen buf 4096 w1) as Hi.
  destruct (invoke f input inlen buf 4096 w1) as [code w2|u w2|];
    [|..|contradiction].
  2:{ exists []. simpl. rewrite Hi, He, <- app_assoc. reflexivity. }
  destruct Hi as [_ Hi].
  destruct (sizing_loop_rounds grow f input inlen Hq fuel 4096 buf code w2)
    as (evs & m & Hev & _); [int_range|].
  exists evs.
  destruct (sizing_loop _ _ _ _ _ _ _ _ _) as [r w3|u w3|]; simpl in *;
    [| |exact I]; rewrite Hev, Hi, He, <- !app_assoc; reflexivity.
Qed.

Lemma of_size_wraps z : 2 ^ 31 <= z < 2 ^ 32 -> CInt.of_size z = z - 2 ^ 32.
Proof.
  intros Hz. unfold CInt.of_size.
  replace (z + 2 ^ 31) with ((z - 2 ^ 31) + 1 * 2 ^ 32) by lia.
  rewrite Z.mod_add, Z.mod_small by lia. lia.
Qed.

Lemma has_nul_letters n : has_nul (letters n) = false.
Proof.
  unfold letters. induction (Z.to_nat n) as [|m IH]; [reflexivity|]. exact IH.
Qed.

(** * The claims *)

(** ** C1: the round trip *)

(** ** The round trip *)
Section RoundTrip.

Variables smaz_compress smaz_decompress : transform.
Variables encode decode : list byte -> list byte.
Variable alphabet : byte -> bool.
Hypothesis compress_honours : honours smaz_compress encode.
Hypothesis decompress_honours : honours smaz_decompress decode.
Hypothesis decode_encode : forall s, forallb alphabet s = true -> decode (encode s) = s.

Lemma roundtrip_outcome s w :
  forallb alphabet s = true ->
  has_nul s = false ->
  Z.of_nat (length s) <= 2 ^ 30 ->
  Z.of_nat (length (encode s)) <= 2 ^ 30 ->
  granted w ->
  exists w',
    roundtrip smaz_compress smaz_decompress s w
    = if is_capacity (Z.of_nat (length s)) then Fault OutOfBounds w'
      else Ok (text_of s) w'.
Proof.
  intros Ha Hn Hlen Henc Hg. unfold roundtrip.
  assert (HM : CInt.INT_MAX = 2 ^ 31 - 1) by reflexivity.
  destruct (compress_correct smaz_compress encode compress_honours s w)
    as (w1 & -> & Hg1); try assumption; [lia|].
  destruct (decompress_correct smaz_decompress decode decompress_honours (encode s) w1)
    as (w2 & Hrun & _); try assumption; [lia|now rewrite decode_encode|].
  rewrite decode_encode in Hrun by assumption. now exists w2.
Qed.

(** For text whose UTF-8 length is none of the capacities the round trip
    gives the text back. *)
Theorem roundtrip_off_capacity s w :
  forallb alphabet s = true ->
  has_nul s = false ->
  utf8_valid s = true ->
  Z.of_nat (length s) <= 2 ^ 30 ->
  Z.of_nat (length (encode s)) <= 2 ^ 30 ->
  is_capacity (Z.of_nat (length s)) = false ->
  granted w ->
  returns (roundtrip smaz_compress smaz_decompress s w) (PyReturn (PyUnicode s)).
Proof.
  intros Ha Hn Hv Hlen Henc Hcap Hg.
  destruct (roundtrip_outcome s w Ha Hn Hlen Henc Hg) as (w' & Hrun).
  rewrite Hcap in Hrun. exists w'. rewrite Hrun.
  unfold text_of. now rewrite (until_nul_id _ Hn), Hv.
Qed.

(** C1 fails: for text of 4096, 8192, ... bytes the decompressed output
    fills the buffer, the terminator is stored one byte past its end (the
    defect of C9), and [decompress(compress(s))] is undefined. *)
Theorem C1_roundtrip_overruns_at_capacity s w :
  forallb alphabet s = true ->
  has_nul s = false ->
  Z.of_nat (length s) <= 2 ^ 30 ->
  Z.of_nat (length (encode s)) <= 2 ^ 30 ->
  is_capacity (Z.of_nat (length s)) = true ->
  granted w ->
  faults (roundtrip smaz_compress smaz_decompress s w) OutOfBounds.
Proof.
  intros Ha Hn Hlen Henc Hcap Hg.
  destruct (roundtrip_outcome s w Ha Hn Hlen Henc Hg) as (w' & Hrun).
  rewrite Hcap in Hrun. now exists w'.
Qed.

End RoundTrip.

Lemma C1_witness :
  is_capacity (Z.of_nat (length (letters 4096))) = true
  /\ faults (roundtrip verbatim verbatim (letters 4096) plenty) OutOfBounds.
Proof.
  assert (Hlen : Z.of_nat (length (letters 4096)) = 4096)
    by (unfold letters; rewrite repeat_length; reflexivity).
  split; [rewrite Hlen; vm_compute; reflexivity|].
  apply (C1_roundtrip_overruns_at_capacity verbatim verbatim (fun s => s) (fun s => s)
           (fun _ => true) verbatim_honours verbatim_honours (fun s _ => eq_refl)
           (letters 4096) plenty).
  - vm_compute. reflexivity.
  - vm_compute. reflexivity.
  - rewrite Hlen. lia.
  - rewrite Hlen. lia.
  - rewrite Hlen. vm_compute. reflexivity.
  - exact plenty_granted.
Defined.

Example roundtrip_hello :
  returns (roundtrip verbatim verbatim [x68; x65; x6c; x6c; x6f] plenty)
    (PyReturn (PyUnicode [x68; x65; x6c; x6c; x6f])).
Proof.
  apply (roundtrip_off_capacity verbatim verbatim (fun s => s) (fun s => s)
           (fun _ => true) verbatim_honours verbatim_honours (fun s _ => eq_refl));
    try reflexivity; try exact plenty_granted; simpl; lia.
Qed.

(** ** C2: growth *)

(** C2 fails for [decompress]: the codec reports 5002 bytes, more than the
    initial buffer holds, and the [str] returned has one character. *)
Lemma C2_counterexample :
  report verbatim ((x61 :: x00 :: letters 5000) ++ [x00]) 5002 8192 = 5002
  /\ returns (py_smaz_decompress verbatim [PyBytes (x61 :: x00 :: letters 5000)] plenty)
       (PyReturn (PyUnicode [x61])).
Proof.
  split; [vm_compute; reflexivity|]. eexists. vm_compute. reflexivity.
Qed.

(** C2, amended: for a codec that honours its contract, input of at most
    [INT_MAX] bytes (so that its length reaches the codec as it is; for
    [compress] a [str] without null character, as it accepts no other), output of
    up to [2^30] bytes and a heap that grants every request, however often the
    buffer had to grow: [compress] returns exactly the codec's output;
    [decompress], when the output length is not itself one of the capacities,
    returns the [str] made of the output up to its first zero byte, which is
    the whole output when it has no zero byte (and raises [UnicodeDecodeError]
    when that is not UTF-8). *)
Theorem C2_growth_amended (smaz_compress smaz_decompress : transform)
    (encode decode : list byte -> list byte) (u d : list byte) (w : world) :
  honours smaz_compress encode -> honours smaz_decompress decode ->
  granted w ->
  (has_nul u = false ->
   Z.of_nat (length u) <= CInt.INT_MAX ->
   Z.of_nat (length (encode u)) <= 2 ^ 30 ->
   returns (py_smaz_compress smaz_compress [PyUnicode u] w) (PyReturn (PyBytes (encode u))))
  /\ (Z.of_nat (length d) <= CInt.INT_MAX ->
      Z.of_nat (length (decode d)) <= 2 ^ 30 ->
      is_capacity (Z.of_nat (length (decode d))) = false ->
      returns (py_smaz_decompress smaz_decompress [PyBytes d] w) (text_of (decode d))
      /\ (has_nul (decode d) = false -> utf8_valid (decode d) = true ->
          text_of (decode d) = PyReturn (PyUnicode (decode d)))).
Proof.
  intros Hc Hd Hg. split.
  - intros Hu Hlen HL.
    destruct (compress_correct smaz_compress encode Hc u w Hu Hlen HL Hg) as (w' & Hrun & _).
    now exists w'.
  - intros Hlen HL Hcap. split.
    + destruct (decompress_correct smaz_decompress decode Hd d w Hlen HL Hg) as (w' & Hrun & _).
      rewrite Hcap in Hrun. now exists w'.
    + intros Hn Hv. unfold text_of. now rewrite (until_nul_id _ Hn), Hv.
Qed.

Lemma C2_witness :
  returns (py_smaz_compress verbatim [PyUnicode (letters 5000)] plenty)
    (PyReturn (PyBytes (letters 5000)))
  /\ returns (py_smaz_decompress verbatim [PyBytes (letters 5000)] plenty)
       (text_of (letters 5000))
  /\ text_of (letters 5000) = PyReturn (PyUnicode (letters 5000)).
Proof.
  pose proof (C2_growth_amended verbatim verbatim (fun s => s) (fun s => s)
                (letters 5000) (letters 5000) plenty
                verbatim_honours verbatim_honours plenty_granted) as [Hc Hd].
  assert (Hlen : Z.of_nat (length (letters 5000)) = 5000)
    by (unfold letters; rewrite repeat_length; reflexivity).
  split; [|split].
  - apply Hc; [vm_compute; reflexivity|rewrite Hlen..]; unfold CInt.INT_MAX; lia.
  - apply Hd; [rewrite Hlen; unfold CInt.INT_MAX; lia|rewrite Hlen; lia|].
    rewrite Hlen. vm_compute. reflexivity.
  - apply Hd; [rewrite Hlen; unfold CInt.INT_MAX; lia|rewrite Hlen; lia|..];
      [rewrite Hlen|..]; vm_compute; reflexivity.
Defined.

(** ** C3: the state machine *)

(** C3 fails at the capacity [2^30]: a codec that always reports the sentinel
    reports it there too, where the machine goes on to [Sizing (2^31)]; the
    call does not, the doubling of the [int] capacity is undefined, and the
    codec is not invoked with [2^31] bytes of room. *)
Lemma C3_counterexample :
  step (report insatiable ([x61] ++ [x00]) 1) (Sizing (2 ^ 30)) (Sizing (2 * 2 ^ 30))
  /\ faults (compress_sizing insatiable ([x61] ++ [x00]) plenty) SignedOverflow
  /\ exists evs,
       events_since plenty (compress_sizing insatiable ([x61] ++ [x00]) plenty) evs
       /\ ~ In (2 * 2 ^ 30) (invoked evs).
Proof.
  split; [now apply step_overflow|].
  rewrite (compress_sizing_sizing insatiable ([x61] ++ [x00]) [x61] plenty eq_refl).
  split.
  - apply (sizing_runaway realloc insatiable _ _ realloc_grows
             (insatiable_never_fits _ _) plenty plenty_granted).
  - destruct (sizing_rounds realloc insatiable ([x61] ++ [x00])
                (CInt.of_size (Z.of_nat (length [x61]))) realloc_quiet plenty)
      as (evs & n & Hev & Hinv & Hn).
    exists evs. split; [exact Hev|]. rewrite Hinv. intros Hin.
    apply capacities_below in Hin; [lia|exact Hn].
Qed.

(** C3, amended: in both entry points the sizing phase starts in
    [Sizing 4096] and follows the state machine as far as an [int] holds the
    capacity.  For every codec and heap, the capacities at which the codec is
    invoked are those of a path of the machine: the phase ends with [L]
    exactly by a path to [Done L], whose last step leaves the current capacity
    on a report other than capacity + 1, all earlier steps doubling it on the
    report capacity + 1; a run cut short by undefined behaviour stopped in the
    state [Sizing C] in which the codec was last invoked, and by the overflow
    of the capacity only after the sentinel was reported at a [C] whose double
    is no [int]; no run exhausts the iterations of the model.  And the steps
    are taken: on a heap that grants the buffers and with a codec that stores
    within the room it is given, when the first report other than the sentinel
    comes at the capacity [4096 * 2^k <= 2^30], the phase ends there with that
    report; when the sentinel is reported at all capacities up to [2^30], the
    doubling overflows. *)
Theorem C3_sizing_amended (smaz_compress smaz_decompress : transform)
    (u compressed_data : list byte) (compressed_data_size : Z) (w : world) :
  (exists evs,
     events_since w (compress_sizing smaz_compress (u ++ [x00]) w) evs
     /\ follows
          (report smaz_compress (u ++ [x00])
             (CInt.of_size (Z.of_nat (length (until_nul u)))))
          4096 (compress_sizing smaz_compress (u ++ [x00]) w) (invoked evs))
  /\ (exists evs,
        events_since w
          (decompress_sizing smaz_decompress compressed_data compressed_data_size w) evs
        /\ follows
             (report smaz_decompress compressed_data (CInt.of_size compressed_data_size))
             4096
             (decompress_sizing smaz_decompress compressed_data compressed_data_size w)
             (invoked evs))
  /\ (granted w ->
      within_room smaz_compress (u ++ [x00])
        (CInt.of_size (Z.of_nat (length (until_nul u)))) ->
      (forall k : nat,
         (k <= 18)%nat ->
         first_fit (report smaz_compress (u ++ [x00])
                      (CInt.of_size (Z.of_nat (length (until_nul u))))) k ->
         exists p w',
           compress_sizing smaz_compress (u ++ [x00]) w
           = Ok (4096 * 2 ^ Z.of_nat k, p,
                 report smaz_compress (u ++ [x00])
                   (CInt.of_size (Z.of_nat (length (until_nul u))))
                   (4096 * 2 ^ Z.of_nat k)) w')
      /\ ((forall k : nat,
             (k <= 18)%nat ->
             report smaz_compress (u ++ [x00])
               (CInt.of_size (Z.of_nat (length (until_nul u)))) (4096 * 2 ^ Z.of_nat k)
             = 4096 * 2 ^ Z.of_nat k + 1) ->
          faults (compress_sizing smaz_compress (u ++ [x00]) w) SignedOverflow))
  /\ (granted w ->
      within_room smaz_decompress compressed_data (CInt.of_size compressed_data_size) ->
      (forall k : nat,
         (k <= 18)%nat ->
         first_fit (report smaz_decompress compressed_data
                      (CInt.of_size compressed_data_size)) k ->
         exists p w',
           decompress_sizing smaz_decompress compressed_data compressed_data_size w
           = Ok (4096 * 2 ^ Z.of_nat k, p,
                 report smaz_decompress compressed_data
                   (CInt.of_size compressed_data_size) (4096 * 2 ^ Z.of_nat k)) w')
      /\ ((forall k : nat,
             (k <= 18)%nat ->
             report smaz_decompress compressed_data
               (CInt.of_size compressed_data_size) (4096 * 2 ^ Z.of_nat k)
             = 4096 * 2 ^ Z.of_nat k + 1) ->
          faults (decompress_sizing smaz_decompress compressed_data compressed_data_size w)
            SignedOverflow)).
Proof.
  rewrite (compress_sizing_sizing smaz_compress (u ++ [x00]) (until_nul u) w)
    by apply c_string_until_nul.
  rewrite decompress_sizing_sizing.
  split; [|split; [|split]].
  - destruct (sizing_path realloc smaz_compress (u ++ [x00])
                (CInt.of_size (Z.of_nat (length (until_nul u))))
                realloc_quiet realloc_no_overflow w)
      as (evs & Hev & _ & _ & Hf).
    now exists evs.
  - destruct (sizing_path (fun _ => malloc) smaz_decompress compressed_data
                (CInt.of_size compressed_data_size) malloc_quiet malloc_no_overflow w)
      as (evs & Hev & _ & _ & Hf).
    now exists evs.
  - intros Hg Hin. split.
    + intros k Hk Hfit. now apply sizing_progress; [exact realloc_grows|..].
    + intros Hsent. apply sizing_runaway; [exact realloc_grows| |assumption].
      now apply within_never_fits.
  - intros Hg Hin. split.
    + intros k Hk Hfit. now apply sizing_progress; [exact malloc_grows|..].
    + intros Hsent. apply sizing_runaway; [exact malloc_grows| |assumption].
      now apply within_never_fits.
Qed.

Lemma C3_witness :
  first_fit (report verbatim (letters 5000 ++ [x00]) (CInt.of_size 5000)) 1
  /\ exists p w',
       decompress_sizing verbatim (letters 5000 ++ [x00]) 5000 plenty
       = Ok (4096 * 2 ^ Z.of_nat 1, p,
             report verbatim (letters 5000 ++ [x00]) (CInt.of_size 5000)
               (4096 * 2 ^ Z.of_nat 1)) w'.
Proof.
  assert (Hfit : first_fit (report verbatim (letters 5000 ++ [x00]) (CInt.of_size 5000)) 1).
  { split.
    - intros j Hj. assert (j = 0%nat) as -> by lia. vm_compute. reflexivity.
    - vm_compute. discriminate. }
  split; [exact Hfit|].
  destruct (C3_sizing_amended verbatim verbatim [] (letters 5000 ++ [x00]) 5000 plenty)
    as (_ & _ & _ & Hd).
  destruct (Hd plenty_granted (verbatim_within _ _)) as [Hstep _].
  apply Hstep; [lia|exact Hfit].
Defined.

(** The first buffer is too small for 5000 bytes: [compress] has it
    reallocated, [decompress] allocates a second one and keeps the first. *)
Example sizing_5000 :
  invoked (trace_of (compress_sizing verbatim (letters 5000 ++ [x00]) plenty))
  = [4096; 8192].
Proof. vm_compute. reflexivity. Qed.

Example compress_5000_events :
  trace_of (py_smaz_compress verbatim [PyUnicode (letters 5000)] plenty)
  = [EMalloc 4096 (Some 0%nat); EInvoke 5000 (Some 0%nat) 4096;
     ERealloc (Some 0%nat) 8192 (Some 1%nat); EInvoke 5000 (Some 1%nat) 8192;
     EFree (Some 1%nat)].
Proof. vm_compute. reflexivity. Qed.

Example decompress_5000_events :
  trace_of (py_smaz_decompress verbatim [PyBytes (letters 5000)] plenty)
  = [EMalloc 4096 (Some 0%nat); EInvoke 5000 (Some 0%nat) 4096;
     EMalloc 8192 (Some 1%nat); EInvoke 5000 (Some 1%nat) 8192;
     EFree (Some 1%nat)].
Proof. vm_compute. reflexivity. Qed.

(** ** C4: the result is cut at the reported length *)

(** C4 fails for [decompress]: of the four decompressed bytes ["hi\0!"] the
    returned [str] holds two. *)
Lemma C4_counterexample :
  report verbatim ([x68; x69; x00; x21] ++ [x00]) 4 4096 = 4
  /\ returns (py_smaz_decompress verbatim [PyBytes [x68; x69; x00; x21]] plenty)
       (PyReturn (PyUnicode [x68; x69])).
Proof.
  split; [reflexivity|]. eexists. vm_compute. reflexivity.
Qed.

(** C4, amended: with the buffer at [p] holding [c] and a reported length [L]
    within it, [compress] returns exactly the first [L] bytes of [c]; with [L]
    below the capacity, [decompress] returns the [str] made of those of the
    first [L] bytes that precede their first zero byte, all [L] of them when
    none is zero (or raises [UnicodeDecodeError] when they are not UTF-8).
    Either result is determined by the first [L] bytes of the buffer. *)
Theorem C4_result_amended (w : world) (id : nat) (c : list byte) (L : Z) :
  live w !! id = Some c ->
  (0 <= L <= Z.of_nat (length c) ->
   returns (compress_result (Some id) L w) (PyReturn (PyBytes (take (Z.to_nat L) c)))
   /\ Z.of_nat (length (take (Z.to_nat L) c)) = L)
  /\ (0 <= L < Z.of_nat (length c) ->
      returns (decompress_result (Some id) L w) (text_of (take (Z.to_nat L) c))
      /\ until_nul (take (Z.to_nat L) c) `prefix_of` take (Z.to_nat L) c
      /\ (has_nul (take (Z.to_nat L) c) = false ->
          until_nul (take (Z.to_nat L) c) = take (Z.to_nat L) c)).
Proof.
  intros Hc. split; intros HL.
  - split.
    + eexists. now apply compress_result_bytes.
    + rewrite length_take. lia.
  - split; [|split].
    + eexists. now apply decompress_result_text.
    + apply until_nul_prefix.
    + apply until_nul_id.
Qed.

Lemma C4_witness :
  returns (compress_result (Some 0%nat) 2 scratch) (PyReturn (PyBytes [x6f; x6b]))
  /\ returns (decompress_result (Some 0%nat) 2 scratch) (PyReturn (PyUnicode [x6f; x6b])).
Proof.
  pose proof (C4_result_amended scratch 0%nat [x6f; x6b; x21; x21] 2 eq_refl) as [Hc Hd].
  split.
  - apply Hc. simpl. lia.
  - apply Hd. simpl. lia.
Defined.

(** ** C5: embedded terminator *)

(** C5: whenever [decompress] returns a value, the sizing phase ended with a
    length [L] below the capacity of the buffer, and the value is the [str]
    made of the first [L] bytes of the buffer up to their first zero byte; so
    with a zero byte among them the [str] is shorter than [L].  And it does
    return that value when the codec honours its contract, the heap grants the
    buffers, the output length is none of the capacities and the bytes before
    the first zero byte are UTF-8. *)
Theorem C5_decompressed_text_stops_at_nul (smaz_decompress : transform)
    (d : list byte) (w : world) :
  (forall v,
     returns (py_smaz_decompress smaz_decompress [PyBytes d] w) (PyReturn v) ->
     exists C id L w1 c,
       decompress_sizing smaz_decompress (d ++ [x00]) (Z.of_nat (length d)) w
       = Ok (C, Some id, L) w1
       /\ live w1 !! id = Some c
       /\ 0 <= L < Z.of_nat (length c)
       /\ v = PyUnicode (until_nul (take (Z.to_nat L) c))
       /\ (has_nul (take (Z.to_nat L) c) = true ->
           Z.of_nat (length (until_nul (take (Z.to_nat L) c))) < L))
  /\ (forall decode,
        honours smaz_decompress decode ->
        Z.of_nat (length d) <= CInt.INT_MAX ->
        Z.of_nat (length (decode d)) <= 2 ^ 30 ->
        is_capacity (Z.of_nat (length (decode d))) = false ->
        utf8_valid (until_nul (decode d)) = true ->
        granted w ->
        returns (py_smaz_decompress smaz_decompress [PyBytes d] w)
          (PyReturn (PyUnicode (until_nul (decode d))))
        /\ (has_nul (decode d) = true ->
            (length (until_nul (decode d)) < length (decode d))%nat)).
Proof.
  split.
  - intros v [w' H]. unfold py_smaz_decompress, PyArg_ParseTuple_y_hash in H.
    rewrite bind_unfold in H.
    destruct (decompress_sizing _ _ _ w) as [[[C p] L] w1|u w1|]; [|discriminate..].
    apply decompress_result_returns in H as (id & c & -> & Hc & HL & Hr).
    exists C, id, L, w1, c. split; [reflexivity|]. split; [assumption|].
    split; [assumption|]. split.
    + unfold text_of in Hr. destruct (utf8_valid _); congruence.
    + intros Hn. apply until_nul_short in Hn. rewrite length_take in Hn. lia.
  - intros decode Hd Hlen HL Hcap Hv Hg. split; [|apply until_nul_short].
    destruct (decompress_correct smaz_decompress decode Hd d w Hlen HL Hg) as (w' & Hrun & _).
    rewrite Hcap in Hrun. exists w'. rewrite Hrun. unfold text_of. now rewrite Hv.
Qed.

Lemma C5_witness :
  returns (py_smaz_decompress verbatim [PyBytes [x61; x00; x62]] plenty)
    (PyReturn (PyUnicode [x61]))
  /\ (length (until_nul [x61; x00; x62]) < length [x61; x00; x62])%nat
  /\ exists C id L w1 c,
       decompress_sizing verbatim ([x61; x00; x62] ++ [x00]) 3 plenty = Ok (C, Some id, L) w1
       /\ live w1 !! id = Some c
       /\ 0 <= L < Z.of_nat (length c)
       /\ PyUnicode [x61] = PyUnicode (until_nul (take (Z.to_nat L) c))
       /\ (has_nul (take (Z.to_nat L) c) = true ->
           Z.of_nat (length (until_nul (take (Z.to_nat L) c))) < L).
Proof.
  destruct (C5_decompressed_text_stops_at_nul verbatim [x61; x00; x62] plenty)
    as [Hsound Hruns].
  destruct (Hruns (fun s => s) verbatim_honours) as [H Hshort];
    [vm_compute; discriminate|vm_compute; discriminate|reflexivity|reflexivity
    |exact plenty_granted|].
  split; [exact H|]. split; [now apply Hshort|].
  exact (Hsound (PyUnicode [x61]) H).
Defined.

(** ** C6: allocation failure *)

(** C6 fails: on a heap that grants nothing, compressing the empty [str]
    returns [None], and compressing ["a"] or decompressing the empty [bytes]
    object stores through the null pointer; no [MemoryError] is raised. *)
Lemma C6_counterexample :
  returns (py_smaz_compress verbatim [PyUnicode []] exhausted) (PyReturn PyNone)
  /\ faults (py_smaz_compress verbatim [PyUnicode [x61]] exhausted) NullDereference
  /\ faults (py_smaz_decompress verbatim [PyBytes []] exhausted) NullDereference.
Proof.
  split; [|split]; eexists; vm_compute; reflexivity.
Qed.

(** C6, amended: a refused allocation raises no [MemoryError] (neither entry
    point has a path that raises one).  The result of [malloc] and [realloc]
    is not examined: when the allocation of the buffer is refused, or its
    growth in the loop, the null pointer goes to the codec, and the call is
    undefined as soon as the codec stores a byte through it, with no further
    allocation attempted. *)
Theorem C6_allocation_failure_amended (smaz_compress smaz_decompress : transform) :
  (forall args w w',
     py_smaz_compress smaz_compress args w <> Ok (PyRaise MemoryError) w'
     /\ py_smaz_decompress smaz_decompress args w <> Ok (PyRaise MemoryError) w')
  /\ (forall u d w,
        grants w (requests w) = false ->
        (has_nul u = false ->
         snd (smaz_compress (u ++ [x00]) (CInt.of_size (Z.of_nat (length u))) 4096) <> [] ->
         py_smaz_compress smaz_compress [PyUnicode u] w
         = Fault NullDereference
             (log (EInvoke (CInt.of_size (Z.of_nat (length u))) None 4096)
                (log (EMalloc 4096 None) (next_request w))))
        /\ (snd (smaz_decompress (d ++ [x00]) (CInt.of_size (Z.of_nat (length d))) 4096) <> [] ->
            py_smaz_decompress smaz_decompress [PyBytes d] w
            = Fault NullDereference
                (log (EInvoke (CInt.of_size (Z.of_nat (length d))) None 4096)
                   (log (EMalloc 4096 None) (next_request w)))))
  /\ (forall n u d size C id c w,
        grants w (requests w) = false ->
        live w !! id = Some c ->
        0 < C <= 2 ^ 30 - 1 ->
        (has_nul u = false ->
         snd (smaz_compress (u ++ [x00]) (CInt.of_size (Z.of_nat (length u))) (C * 2)) <> [] ->
         compress_loop smaz_compress (S n) (u ++ [x00]) C (Some id) (C + 1) w
         = Fault NullDereference
             (log (EInvoke (CInt.of_size (Z.of_nat (length u))) None (C * 2))
                (log (ERealloc (Some id) (C * 2) None) (next_request w))))
        /\ (snd (smaz_decompress d (CInt.of_size size) (C * 2)) <> [] ->
            decompress_loop smaz_decompress (S n) d size C (Some id) (C + 1) w
            = Fault NullDereference
                (log (EInvoke (CInt.of_size size) None (C * 2))
                   (log (EMalloc (C * 2) None) (next_request w))))).
Proof.
  split; [|split].
  - intros args w w'. split.
    + unfold py_smaz_compress.
      destruct (PyArg_ParseTuple_s "compress" args) as [e|input] eqn:Hp.
      * apply parse_s_error in Hp. intros [= He _]. now apply Hp.
      * rewrite bind_unfold.
        destruct (compress_sizing _ _ w) as [[[C p] L] w1|u w1|]; [|discriminate..].
        intros H. apply compress_result_value in H as [v Hv]. discriminate.
    + unfold py_smaz_decompress.
      destruct (PyArg_ParseTuple_y_hash "decompress" args) as [e|[data size]] eqn:Hp.
      * apply parse_y_hash_error in Hp. intros [= He _]. now apply Hp.
      * rewrite bind_unfold.
        destruct (decompress_sizing _ _ _ w) as [[[C p] L] w1|u w1|]; [|discriminate..].
        intros H. apply decompress_result_returns in H as (id & c & _ & _ & _ & Hr).
        unfold text_of in Hr. destruct (utf8_valid _); discriminate.
  - intros u d w Hno. split.
    + intros Hu Hst.
      rewrite py_smaz_compress_str by assumption.
      unfold sizing. rewrite !bind_unfold, (malloc_refused 4096 w Hno).
      cbv beta iota. rewrite bind_unfold, invoke_null by assumption. reflexivity.
    + intros Hst.
      rewrite py_smaz_decompress_bytes.
      unfold sizing. rewrite !bind_unfold, (malloc_refused 4096 w Hno).
      cbv beta iota. rewrite bind_unfold, invoke_null by assumption. reflexivity.
  - intros n u d size C id c w Hno Hc HC. split.
    + intros Hu Hst.
      rewrite (compress_loop_sizing smaz_compress (u ++ [x00]) u)
        by now apply c_string_app.
      rewrite sizing_loop_S, bind_unfold.
      destruct (int_add_cases C 1 w) as [[_ ->]|[Ha _]];
        [|int_range].
      rewrite Z.eqb_refl, bind_unfold.
      destruct (int_mul_cases C 2 w) as [[_ ->]|[Ha _]];
        [|int_range].
      rewrite bind_unfold, (realloc_refused id c (C * 2) w Hc Hno), bind_unfold.
      rewrite invoke_null by assumption. reflexivity.
    + intros Hst.
      rewrite decompress_loop_sizing.
      rewrite sizing_loop_S, bind_unfold.
      destruct (int_add_cases C 1 w) as [[_ ->]|[Ha _]];
        [|int_range].
      rewrite Z.eqb_refl, bind_unfold.
      destruct (int_mul_cases C 2 w) as [[_ ->]|[Ha _]];
        [|int_range].
      rewrite bind_unfold, (malloc_refused (C * 2) w Hno), bind_unfold.
      rewrite invoke_null by assumption. reflexivity.
Qed.

Lemma C6_witness :
  grants exhausted (requests exhausted) = false
  /\ py_smaz_compress verbatim [PyUnicode [x61]] exhausted
     = Fault NullDereference
         (log (EInvoke (CInt.of_size 1) None 4096)
            (log (EMalloc 4096 None) (next_request exhausted)))
  /\ py_smaz_decompress verbatim [PyBytes [x61]] exhausted
     = Fault NullDereference
         (log (EInvoke (CInt.of_size 1) None 4096)
            (log (EMalloc 4096 None) (next_request exhausted))).
Proof.
  destruct (C6_allocation_failure_amended verbatim verbatim) as (_ & Hfirst & _).
  destruct (Hfirst [x61] [x61] exhausted eq_refl) as [Hc Hd].
  split; [reflexivity|]. split.
  - apply Hc; [reflexivity|]. vm_compute. discriminate.
  - apply Hd. vm_compute. discriminate.
Defined.

(** ** C7: wrong-shaped arguments *)

(** C7: an argument tuple that is not a single [str] (for compress), or not a
    single [bytes] object (for decompress), is rejected at once with a
    [TypeError] that names the function; the world is left as it was, so no
    buffer was allocated and no work done. *)
Theorem C7_wrong_shape_rejected (smaz_compress smaz_decompress : transform)
    (args : list PyObject) (w : world) :
  (one_str args = false ->
   py_smaz_compress smaz_compress args w = Ok (PyRaise (TypeError "compress")) w)
  /\ (one_bytes args = false ->
      py_smaz_decompress smaz_decompress args w = Ok (PyRaise (TypeError "decompress")) w).
Proof.
  split; intros H.
  - destruct args as [|[] [|]]; try discriminate; reflexivity.
  - destruct args as [|[] [|]]; try discriminate; reflexivity.
Qed.

Lemma C7_witness :
  one_str [PyLong 3] = false
  /\ one_bytes [PyUnicode [x61]; PyNone] = false
  /\ py_smaz_compress verbatim [PyLong 3] plenty = Ok (PyRaise (TypeError "compress")) plenty
  /\ py_smaz_decompress verbatim [PyUnicode [x61]; PyNone] plenty
     = Ok (PyRaise (TypeError "decompress")) plenty.
Proof.
  split; [reflexivity|]. split; [reflexivity|]. split.
  - apply (C7_wrong_shape_rejected verbatim verbatim [PyLong 3] plenty). reflexivity.
  - apply (C7_wrong_shape_rejected verbatim verbatim [PyUnicode [x61]; PyNone] plenty). reflexivity.
Defined.

(** ** C8: empty input *)

(** C8: with a codec that maps the empty input to the empty output, and a
    heap that grants the buffer, compressing the empty [str] returns the empty [bytes]
    object and decompressing the empty [bytes] object the empty [str]. *)
Theorem C8_empty_input (smaz_compress smaz_decompress : transform)
    (encode decode : list byte -> list byte) (w : world) :
  honours smaz_compress encode -> honours smaz_decompress decode ->
  encode [] = [] -> decode [] = [] ->
  granted w ->
  returns (py_smaz_compress smaz_compress [PyUnicode []] w) (PyReturn (PyBytes []))
  /\ returns (py_smaz_decompress smaz_decompress [PyBytes []] w) (PyReturn (PyUnicode [])).
Proof.
  intros Hc Hd He Hde Hg. split.
  - destruct (compress_correct smaz_compress encode Hc [] w) as (w' & Hrun & _);
      try assumption; try reflexivity.
    + simpl. unfold CInt.INT_MAX. lia.
    + rewrite He. simpl. lia.
    + exists w'. now rewrite Hrun, He.
  - destruct (decompress_correct smaz_decompress decode Hd [] w) as (w' & Hrun & _);
      try assumption.
    + simpl. unfold CInt.INT_MAX. lia.
    + rewrite Hde. simpl. lia.
    + exists w'. now rewrite Hrun, Hde.
Qed.

Lemma C8_witness :
  returns (py_smaz_compress verbatim [PyUnicode []] plenty) (PyReturn (PyBytes []))
  /\ returns (py_smaz_decompress verbatim [PyBytes []] plenty) (PyReturn (PyUnicode [])).
Proof.
  apply (C8_empty_input verbatim verbatim (fun s => s) (fun s => s) plenty
           verbatim_honours verbatim_honours eq_refl eq_refl plenty_granted).
Defined.

(** ** C9: the terminator store *)

(** C9 fails: when the decompressed output fills the buffer exactly, which
    it does when its length is one of the capacities, the index at which the
    terminator is stored equals the capacity; the store is out of bounds and
    the call undefined. *)
Theorem C9_terminator_stored_past_buffer (smaz_decompress : transform)
    (decode : list byte -> list byte) (d : list byte) (w : world) :
  honours smaz_decompress decode ->
  Z.of_nat (length d) <= CInt.INT_MAX ->
  Z.of_nat (length (decode d)) <= 2 ^ 30 ->
  is_capacity (Z.of_nat (length (decode d))) = true ->
  granted w ->
  exists C id L w1 c,
    decompress_sizing smaz_decompress (d ++ [x00]) (Z.of_nat (length d)) w
    = Ok (C, Some id, L) w1
    /\ live w1 !! id = Some c /\ Z.of_nat (length c) = C
    /\ L = Z.of_nat (length (decode d)) /\ L = C
    /\ store (Some id) L x00 w1 = Fault OutOfBounds w1
    /\ py_smaz_decompress smaz_decompress [PyBytes d] w = Fault OutOfBounds w1.
Proof.
  intros Hd Hlen HL Hcap Hg.
  destruct (sizing_fits (fun _ => malloc) smaz_decompress decode (d ++ [x00])
              (Z.of_nat (length d)) malloc_grows Hd) with (w := w)
    as (C & p & w1 & k & Hrun & (id & c & -> & Hc & Hcl & Hout) & Hg1 & HC & HLC & Hk);
    rewrite ?Nat2Z.id, ?take_app_length, ?length_app; try assumption; try lia.
  rewrite Nat2Z.id, take_app_length in Hrun, Hout, HLC, Hk.
  apply (stops_at_capacity _ C k HL HC HLC Hk) in Hcap.
  exists C, id, (Z.of_nat (length (decode d))), w1, c.
  assert (Hsizing :
    decompress_sizing smaz_decompress (d ++ [x00]) (Z.of_nat (length d)) w
    = Ok (C, Some id, Z.of_nat (length (decode d))) w1).
  { rewrite decompress_sizing_sizing, of_size_small by lia. exact Hrun. }
  split; [exact Hsizing|]. split; [assumption|]. split; [assumption|].
  split; [reflexivity|]. split; [assumption|]. split.
  - unfold store. rewrite Hc.
    destruct (Z.ltb_spec (Z.of_nat (length (decode d))) (Z.of_nat (length c))); [lia|].
    now rewrite andb_false_r.
  - unfold py_smaz_decompress, PyArg_ParseTuple_y_hash.
    rewrite bind_unfold, Hsizing.
    apply decompress_result_outside with (c := c); [assumption|lia].
Qed.

Lemma C9_witness :
  is_capacity (Z.of_nat (length (letters 4096))) = true
  /\ exists C id L w1 c,
       decompress_sizing verbatim (letters 4096 ++ [x00])
         (Z.of_nat (length (letters 4096))) plenty
       = Ok (C, Some id, L) w1
       /\ live w1 !! id = Some c /\ Z.of_nat (length c) = C
       /\ L = Z.of_nat (length (letters 4096)) /\ L = C
       /\ store (Some id) L x00 w1 = Fault OutOfBounds w1
       /\ py_smaz_decompress verbatim [PyBytes (letters 4096)] plenty
          = Fault OutOfBounds w1.
Proof.
  assert (Hlen : Z.of_nat (length (letters 4096)) = 4096)
    by (unfold letters; rewrite repeat_length; reflexivity).
  split; [rewrite Hlen; vm_compute; reflexivity|].
  apply (C9_terminator_stored_past_buffer verbatim (fun s => s) (letters 4096) plenty
           verbatim_honours).
  - rewrite Hlen. unfold CInt.INT_MAX. lia.
  - rewrite Hlen. lia.
  - rewrite Hlen. vm_compute. reflexivity.
  - exact plenty_granted.
Defined.

(** ** C10: embedded null characters *)

(** C10 fails for long text: a [str] of [2^31] letters is accepted, and the
    codec is invoked with the length [-2^31], not with the [2^31] bytes of the
    text. *)
Lemma C10_counterexample :
  has_nul (letters (2 ^ 31)) = false
  /\ Z.of_nat (length (letters (2 ^ 31))) = 2 ^ 31
  /\ py_smaz_compress verbatim [PyUnicode (letters (2 ^ 31))] plenty <> Timeout
  /\ exists p evs,
       events_since plenty (py_smaz_compress verbatim [PyUnicode (letters (2 ^ 31))] plenty)
         (EMalloc 4096 p :: EInvoke (- 2 ^ 31) p 4096 :: evs).
Proof.
  assert (Hlen : Z.of_nat (length (letters (2 ^ 31))) = 2 ^ 31).
  { unfold letters. rewrite repeat_length, Z2Nat.id; lia. }
  split; [apply has_nul_letters|]. split; [exact Hlen|].
  split; [apply py_smaz_compress_ends|].
  rewrite py_smaz_compress_str, Hlen, of_size_wraps by (apply has_nul_letters || lia).
  change (2 ^ 31 - 2 ^ 32) with (- 2 ^ 31).
  destruct (sizing_first realloc verbatim (letters (2 ^ 31) ++ [x00]) (- 2 ^ 31) plenty
              realloc_quiet) as (p & evs & Hev).
  destruct (events_since_bind
              (sizing realloc verbatim (letters (2 ^ 31) ++ [x00]) (- 2 ^ 31))
              (fun '(_, output_buffer, compressed_size) =>
                 compress_result output_buffer compressed_size) plenty _ Hev)
    as (evs' & Hev' & _).
  { intros [[C q] L] w1 _. apply compress_result_events. }
  exists p, (evs ++ evs'). exact Hev'.
Qed.

(** C10, amended: a [str] with an embedded null character is rejected with
    the [ValueError] of [PyArg_ParseTuple], before anything is allocated; for
    an accepted [str] the codec is invoked, and every invocation is given the
    length of its UTF-8 form converted to [int]: the full length when that is
    at most [INT_MAX], the length less [2^32] when it is from [2^31] to
    [2^32 - 1]. *)
Theorem C10_embedded_null_amended (smaz_compress : transform) (u : list byte) (w : world) :
  (has_nul u = true ->
   py_smaz_compress smaz_compress [PyUnicode u] w = Ok (PyRaise ValueError) w)
  /\ (has_nul u = false ->
      py_smaz_compress smaz_compress [PyUnicode u] w <> Timeout
      /\ exists evs,
           events_since w (py_smaz_compress smaz_compress [PyUnicode u] w) evs
           /\ invoked evs <> []
           /\ invoked_with (CInt.of_size (Z.of_nat (length u))) evs
           /\ (Z.of_nat (length u) <= CInt.INT_MAX ->
               invoked_with (Z.of_nat (length u)) evs)
           /\ (2 ^ 31 <= Z.of_nat (length u) < 2 ^ 32 ->
               invoked_with (Z.of_nat (length u) - 2 ^ 32) evs)).
Proof.
  split; intros Hu.
  - unfold py_smaz_compress, PyArg_ParseTuple_s. now rewrite Hu.
  - split; [apply py_smaz_compress_ends|].
    rewrite py_smaz_compress_str by assumption.
    destruct (sizing_path realloc smaz_compress (u ++ [x00])
                (CInt.of_size (Z.of_nat (length u))) realloc_quiet realloc_no_overflow w)
      as (evs & Hev & Hw & Hne & _).
    destruct (events_since_bind
                (sizing realloc smaz_compress (u ++ [x00]) (CInt.of_size (Z.of_nat (length u))))
                (fun '(_, output_buffer, compressed_size) =>
                   compress_result output_buffer compressed_size) w evs Hev)
      as (evs' & Hev' & Hq).
    { intros [[C p] L] w1 _. apply compress_result_events. }
    exists (evs ++ evs'). split; [exact Hev'|]. split; [|split; [|split]].
    + now rewrite invoked_app_quiet.
    + now apply invoked_with_app_quiet.
    + intros Hlen. rewrite of_size_small in Hw by lia. now apply invoked_with_app_quiet.
    + intros Hlen. rewrite of_size_wraps in Hw by lia. now apply invoked_with_app_quiet.
Qed.

Lemma C10_witness :
  (has_nul [x61; x00; x62] = true
   /\ py_smaz_compress verbatim [PyUnicode [x61; x00; x62]] plenty
      = Ok (PyRaise ValueError) plenty)
  /\ (has_nul [x61; x62] = false
      /\ py_smaz_compress verbatim [PyUnicode [x61; x62]] plenty <> Timeout
      /\ exists evs,
           events_since plenty (py_smaz_compress verbatim [PyUnicode [x61; x62]] plenty) evs
           /\ invoked evs <> []
           /\ invoked_with 2 evs).
Proof.
  split; (split; [reflexivity|]).
  - apply (C10_embedded_null_amended verbatim [x61; x00; x62] plenty). reflexivity.
  - destruct (proj2 (C10_embedded_null_amended verbatim [x61; x62] plenty) eq_refl)
      as (Hend & evs & Hev & Hne & _ & Hw & _).
    split; [exact Hend|].
    exists evs. split; [exact Hev|]. split; [exact Hne|].
    apply Hw. vm_compute. discriminate.
Defined.

(** * Further properties of the two entry points *)

(** ** The number of rounds *)

Lemma call_rounds (smaz_compress smaz_decompress : transform)
    (args : list PyObject) (w : world) :
  (py_smaz_compress smaz_compress args w <> Timeout
   /\ exists evs (n : nat),
        events_since w (py_smaz_compress smaz_compress args w) evs
        /\ invoked evs = capacities n /\ (n <= 19)%nat)
  /\ (py_smaz_decompress smaz_decompress args w <> Timeout
      /\ exists evs (n : nat),
           events_since w (py_smaz_decompress smaz_decompress args w) evs
           /\ invoked evs = capacities n /\ (n <= 19)%nat).
Proof.
  split; (split; [apply py_smaz_compress_ends || apply py_smaz_decompress_ends|]).
  - unfold py_smaz_compress.
    destruct (PyArg_ParseTuple_s "compress" args) as [e|input] eqn:Hp.
    { exists [], 0%nat. split; [simpl; now rewrite app_nil_r|]. split; [reflexivity|lia]. }
    assert (Ht : exists t, c_string input = Some t).
    { unfold PyArg_ParseTuple_s in Hp.
      destruct args as [|[] [|]]; try discriminate.
      destruct (has_nul utf8) eqn:Hn; [discriminate|]. injection Hp as <-.
      exists utf8. now apply c_string_app. }
    destruct Ht as [t Ht].
    destruct (sizing_rounds realloc smaz_compress input
                (CInt.of_size (Z.of_nat (length t))) realloc_quiet w)
      as (evs & n & Hev & Hinv & Hn).
    rewrite <- (compress_sizing_sizing smaz_compress input _ w Ht) in Hev.
    destruct (events_since_bind (compress_sizing smaz_compress input)
                (fun '(_, output_buffer, compressed_size) =>
                   compress_result output_buffer compressed_size) w evs Hev)
      as (evs' & Hev' & Hq).
    { intros [[C p] L] w1 _. apply compress_result_events. }
    exists (evs ++ evs'), n. split; [exact Hev'|]. split; [|assumption].
    now rewrite invoked_app_quiet.
  - unfold py_smaz_decompress.
    destruct (PyArg_ParseTuple_y_hash "decompress" args) as [e|[data size]] eqn:Hp.
    { exists [], 0%nat. split; [simpl; now rewrite app_nil_r|]. split; [reflexivity|lia]. }
    destruct (sizing_rounds (fun _ => malloc) smaz_decompress data
                (CInt.of_size size) malloc_quiet w)
      as (evs & n & Hev & Hinv & Hn).
    rewrite <- decompress_sizing_sizing in Hev.
    destruct (events_since_bind (decompress_sizing smaz_decompress data size)
                (fun '(_, output_buffer, decompressed_size) =>
                   decompress_result output_buffer decompressed_size) w evs Hev)
      as (evs' & Hev' & Hq).
    { intros [[C p] L] w1 _. apply decompress_result_events. }
    exists (evs ++ evs'), n. split; [exact Hev'|]. split; [|assumption].
    now rewrite invoked_app_quiet.
Qed.

(** X1: a call that returns or raises has invoked the codec at most 19 times,
    at the capacities 4096, 8192, ... in this order (not at all when the
    arguments were turned down): a twentieth invocation would need a capacity
    of [2^31] bytes, which the [int] does not hold. *)
Theorem rounds_bounded (smaz_compress smaz_decompress : transform)
    (args : list PyObject) (w : world) (r : PyResult) (w' : world) :
  (py_smaz_compress smaz_compress args w = Ok r w' ->
   exists evs (n : nat),
     trace w' = trace w ++ evs /\ invoked evs = capacities n /\ (n <= 19)%nat)
  /\ (py_smaz_decompress smaz_decompress args w = Ok r w' ->
      exists evs (n : nat),
        trace w' = trace w ++ evs /\ invoked evs = capacities n /\ (n <= 19)%nat).
Proof.
  destruct (call_rounds smaz_compress smaz_decompress args w)
    as [[_ (evs & n & Hev & Hn)] [_ (evs' & n' & Hev' & Hn')]].
  split; intros H; rewrite H in *; eauto.
Qed.

Lemma rounds_bounded_witness :
  exists r w' evs (n : nat),
    py_smaz_compress verbatim [PyUnicode (letters 5000)] plenty = Ok r w'
    /\ trace w' = trace plenty ++ evs /\ invoked evs = capacities n /\ (n <= 19)%nat.
Proof.
  destruct (compress_correct verbatim (fun s => s) verbatim_honours (letters 5000) plenty)
    as (w' & Hrun & _).
  - vm_compute. reflexivity.
  - unfold letters. rewrite repeat_length. vm_compute. discriminate.
  - unfold letters. rewrite repeat_length. vm_compute. discriminate.
  - exact plenty_granted.
  - destruct (proj1 (rounds_bounded verbatim verbatim _ plenty _ w') Hrun)
      as (evs & n & Hev & Hn).
    exists (PyReturn (PyBytes (letters 5000))), w', evs, n. split; [exact Hrun|].
    split; [exact Hev|exact Hn].
Defined.


(** ** A codec that never fits *)

(** X2: a codec that reports the sentinel at each of the 19 capacities, on a
    heap that grants the buffers, takes the call into undefined behaviour:
    after the round at [2^30] the doubling of the [int] [output_buffer_size]
    overflows.  Such a call has no defined result. *)
Theorem runaway_codec_overflows (smaz_compress smaz_decompress : transform)
    (u d : list byte) (w : world) :
  granted w ->
  (has_nul u = false ->
   never_fits smaz_compress (u ++ [x00]) (CInt.of_size (Z.of_nat (length u))) ->
   faults (py_smaz_compress smaz_compress [PyUnicode u] w) SignedOverflow)
  /\ (never_fits smaz_decompress (d ++ [x00]) (CInt.of_size (Z.of_nat (length d))) ->
      faults (py_smaz_decompress smaz_decompress [PyBytes d] w) SignedOverflow).
Proof.
  intros Hg. split.
  - intros Hu Hf. rewrite py_smaz_compress_str, bind_unfold by assumption.
    destruct (sizing_runaway realloc smaz_compress _ _ realloc_grows Hf w Hg) as [w' ->].
    now exists w'.
  - intros Hf. rewrite py_smaz_decompress_bytes, bind_unfold.
    destruct (sizing_runaway (fun _ => malloc) smaz_decompress _ _ malloc_grows Hf w Hg)
      as [w' ->].
    now exists w'.
Qed.


Lemma runaway_codec_overflows_witness :
  faults (py_smaz_compress insatiable [PyUnicode [x61]] plenty) SignedOverflow
  /\ faults (py_smaz_decompress insatiable [PyBytes [x61]] plenty) SignedOverflow.
Proof.
  destruct (runaway_codec_overflows insatiable insatiable [x61] [x61] plenty plenty_granted)
    as [Hc Hd].
  split.
  - apply Hc; [reflexivity|apply insatiable_never_fits].
  - apply Hd. apply insatiable_never_fits.
Defined.

(** ** What a call leaves on the heap *)

Lemma invoke_frame f input inlen b C w code w' :
  invoke f input inlen (Some b) C w = Ok code w' ->
  requests w' = requests w /\ grants w' = grants w
  /\ (forall id, id <> b -> live w' !! id = live w !! id)
  /\ (forall c, live w !! b = Some c ->
        exists c', live w' !! b = Some c' /\ length c' = length c
                   /\ live w' = <[b := c']> (live w)).
Proof.
  unfold invoke. destruct (f input inlen C) as [code0 st].
  destruct st as [|x st].
  - intros [= <- <-]. repeat split; try reflexivity.
    intros c Hc. exists c. simpl. repeat split; [assumption|].
    symmetry. now apply insert_id.
  - change (live (log (EInvoke inlen (Some b) C) w)) with (live w).
    destruct (live w !! b) as [c|] eqn:Hc; [|discriminate].
    destruct (Nat.leb_spec (length (x :: st)) (length c)) as [Hl|]; [|discriminate].
    intros [= <- <-]. simpl. repeat split.
    + intros id Hid. now apply lookup_insert_ne.
    + intros c0 [= <-]. eexists. split; [apply lookup_insert_eq|]. split; [|reflexivity].
      simpl in *. rewrite length_app, length_drop. lia.
Qed.

Lemma granted_same w w' :
  granted w -> grants w' = grants w -> (requests w <= requests w')%nat -> granted w'.
Proof. intros Hg Hgr Hr i Hi. rewrite Hgr. apply Hg. lia. Qed.

(** *** [compress]: the buffer moves, nothing else changes *)

Section ReallocLoop.

Variable f : transform.
Variable input : list byte.
Variable inlen : Z.
Variable base : gmap nat (list byte).
Variable id0 : nat.
Hypothesis base_clear : forall id, (id0 <= id)%nat -> base !! id = None.

Lemma realloc_loop_owns n C b c code w C' p' L w' :
  0 < C -> granted w -> live w = <[b := c]> base -> (id0 <= b < requests w)%nat ->
  sizing_loop realloc f input inlen n C (Some b) code w = Ok (C', p', L) w' ->
  exists b' c',
    p' = Some b' /\ live w' = <[b' := c']> base /\ (id0 <= b')%nat
    /\ (requests w <= requests w')%nat.
Proof.
  revert C b c code w.
  induction n as [|n IH]; intros C b c code w HC Hg Hl Hb; [discriminate|].
  rewrite sizing_loop_S, bind_unfold.
  destruct (int_add_cases C 1 w) as [[_ ->]|[_ ->]]; [|discriminate].
  destruct (C + 1 =? code).
  2:{ intros [= <- <- <- <-]. exists b, c. repeat split; [assumption|lia|lia]. }
  rewrite bind_unfold.
  destruct (int_mul_cases C 2 w) as [[_ ->]|[_ ->]]; [|discriminate].
  rewrite bind_unfold. unfold realloc.
  rewrite Hl, lookup_insert_eq, (Hg (requests w)) by lia.
  destruct (Z.leb_spec 0 (C * 2)); [|lia]. simpl.
  rewrite bind_unfold.
  set (w1 := log _ _).
  destruct (invoke f input inlen (Some (requests w)) (C * 2) w1) as [code1 w2|u w2|] eqn:Hi;
    [|discriminate..].
  apply invoke_frame in Hi as (Hr & Hgr & _ & Hsame).
  destruct (Hsame _ (lookup_insert_eq _ _ _)) as (c2 & _ & _ & Hl2).
  intros Hloop.
  assert (Hr1 : requests w1 = S (requests w)) by reflexivity.
  apply (IH (C * 2) (requests w) c2 code1 w2) in Hloop
    as (b' & c' & -> & Hl' & Hb' & Hmono).
  - exists b', c'. repeat split; try assumption. lia.
  - lia.
  - apply (granted_same w); [assumption|now rewrite Hgr|rewrite Hr; simpl; lia].
  - rewrite Hl2. subst w1. simpl. rewrite Hl, delete_insert_eq, insert_insert_eq.
    rewrite delete_id by (apply base_clear; lia). reflexivity.
  - rewrite Hr. simpl. lia.
Qed.

End ReallocLoop.

Lemma compress_result_heap b L w r w' :
  compress_result (Some b) L w = Ok r w' ->
  live w' = delete b (live w) /\ requests w' = requests w.
Proof.
  unfold compress_result, Py_BuildValue_y_hash, free. rewrite bind_unfold.
  destruct (live w !! b) eqn:Hc; [|discriminate].
  destruct (read l L); [|discriminate].
  rewrite bind_unfold, Hc. intros [= _ <-]. now split.
Qed.

Lemma decompress_result_heap p L w r w' :
  decompress_result p L w = Ok r w' ->
  exists b, p = Some b /\ live w' = delete b (live w) /\ requests w' = requests w.
Proof.
  intros H. apply decompress_result_returns in H as H'.
  destruct H' as (id & c & -> & Hc & HL & _).
  rewrite (decompress_result_text w id c) in H by assumption.
  injection H as _ <-. now exists id.
Qed.

Lemma parse_s_terminated fname args input :
  PyArg_ParseTuple_s fname args = inr input ->
  exists u, args = [PyUnicode u] /\ has_nul u = false /\ input = u ++ [x00].
Proof.
  unfold PyArg_ParseTuple_s.
  destruct args as [|[] [|]]; try discriminate.
  destruct (has_nul utf8) eqn:Hn; [discriminate|]. intros [= <-]. now exists utf8.
Qed.

Lemma malloc_fresh size w :
  0 <= size -> granted w ->
  malloc size w
  = Ok (Some (requests w))
      (log (EMalloc size (Some (requests w)))
         (next_request
            (set_live (insert (requests w) (fresh w (requests w) 0 (Z.to_nat size))) w))).
Proof.
  intros Hs Hg. unfold malloc. rewrite (Hg (requests w)) by lia.
  destruct (Z.leb_spec 0 size); [reflexivity|lia].
Qed.

Lemma compress_heap f args w r w' :
  wf w -> granted w ->
  py_smaz_compress f args w = Ok r w' ->
  live w' = live w /\ (requests w <= requests w')%nat.
Proof.
  intros Hwf Hg. unfold py_smaz_compress.
  destruct (PyArg_ParseTuple_s "compress" args) as [e|input] eqn:Hp.
  { intros [= _ <-]. split; [reflexivity|lia]. }
  apply parse_s_terminated in Hp as (u & -> & Hu & ->).
  rewrite bind_unfold,
    (compress_sizing_sizing f (u ++ [x00]) u w (c_string_app u [] Hu)).
  unfold sizing. rewrite bind_unfold, malloc_fresh by (lia || assumption).
  rewrite bind_unfold. set (w1 := log _ _).
  destruct (invoke _ _ _ _ _ w1) as [code w2|x w2|] eqn:Hi; [|discriminate..].
  apply invoke_frame in Hi as (Hr & Hgr & _ & Hsame).
  destruct (Hsame _ (lookup_insert_eq _ _ _)) as (c2 & _ & _ & Hl2).
  assert (Hr1 : requests w1 = S (requests w)) by reflexivity.
  destruct (sizing_loop _ _ _ _ _ _ _ _ w2) as [[[C p] L] w3|x w3|] eqn:Hloop;
    [|discriminate..].
  apply (realloc_loop_owns f _ _ (live w) (requests w) Hwf
           fuel 4096 (requests w) c2) in Hloop as (b' & c' & -> & Hl3 & Hb' & Hmono).
  - intros H. apply compress_result_heap in H as [-> ->].
    rewrite Hl3, delete_insert_eq. split; [now apply delete_id, Hwf|lia].
  - lia.
  - apply (granted_same w); [assumption|now rewrite Hgr|rewrite Hr; simpl; lia].
  - rewrite Hl2. subst w1. simpl. now rewrite insert_insert_eq.
  - rewrite Hr. simpl. lia.
Qed.


(** X3: on a heap that grants every request, a call of [compress] that
    returns or raises leaves every block as it found it: the buffer it
    released is the only one it ever held, whatever the codec and however
    often the buffer was reallocated. *)
Theorem compress_restores_heap (smaz_compress : transform)
    (args : list PyObject) (w : world) (r : PyResult) (w' : world) :
  wf w -> granted w ->
  py_smaz_compress smaz_compress args w = Ok r w' ->
  live w' = live w.
Proof.
  intros Hwf Hg Hrun. now apply (compress_heap smaz_compress args w r w').
Qed.

Lemma plenty_wf : wf plenty.
Proof. intros id _. reflexivity. Qed.

Lemma compress_restores_heap_witness :
  exists r w',
    py_smaz_compress verbatim [PyUnicode (letters 5000)] plenty = Ok r w'
    /\ live w' = live plenty.
Proof.
  destruct (compress_correct verbatim (fun s => s) verbatim_honours (letters 5000) plenty)
    as (w' & Hrun & _).
  - vm_compute. reflexivity.
  - unfold letters. rewrite repeat_length. vm_compute. discriminate.
  - unfold letters. rewrite repeat_length. vm_compute. discriminate.
  - exact plenty_granted.
  - exists (PyReturn (PyBytes (letters 5000))), w'. split; [exact Hrun|].
    exact (compress_restores_heap verbatim _ plenty _ w' plenty_wf plenty_granted Hrun).
Defined.

(** *** [decompress]: every round takes a new block *)

Section MallocLoop.

Variable f : transform.
Variable input : list byte.
Variable inlen : Z.

Lemma malloc_loop_frame n C b code w C' p' L w' :
  0 < C -> granted w -> wf w -> S b = requests w ->
  sizing_loop (fun _ => malloc) f input inlen n C (Some b) code w = Ok (C', p', L) w' ->
  exists b',
    p' = Some b' /\ S b' = requests w' /\ wf w' /\ (requests w <= requests w')%nat
    /\ C' = C * 2 ^ Z.of_nat (requests w' - requests w)
    /\ (forall id, (id < requests w)%nat -> live w' !! id = live w !! id)
    /\ (forall id, (requests w <= id < requests w')%nat -> is_Some (live w' !! id)).
Proof.
  revert C b code w.
  induction n as [|n IH]; intros C b code w HC Hg Hwf Hb; [discriminate|].
  rewrite sizing_loop_S, bind_unfold.
  destruct (int_add_cases C 1 w) as [[_ ->]|[_ ->]]; [|discriminate].
  destruct (C + 1 =? code).
  2:{ intros [= <- <- <- <-]. exists b. rewrite Nat.sub_diag. simpl.
      repeat split; try assumption; try lia. }
  rewrite bind_unfold.
  destruct (int_mul_cases C 2 w) as [[_ ->]|[_ ->]]; [|discriminate].
  rewrite bind_unfold, malloc_fresh by (lia || assumption).
  rewrite bind_unfold. set (w1 := log _ _).
  destruct (invoke _ _ _ _ _ w1) as [code1 w2|x w2|] eqn:Hi; [|discriminate..].
  apply invoke_frame in Hi as (Hr & Hgr & Hother & Hsame).
  destruct (Hsame _ (lookup_insert_eq _ _ _)) as (c2 & Hc2 & _ & _).
  assert (Hr1 : requests w1 = S (requests w)) by reflexivity.
  assert (Hl1 : forall id, id <> requests w -> live w1 !! id = live w !! id).
  { intros id Hid. subst w1. simpl. now apply lookup_insert_ne. }
  intros Hloop.
  apply (IH (C * 2) (requests w) code1 w2) in Hloop
    as (b' & -> & Hb' & Hwf' & Hmono & HC' & Hframe & Hrange).
  - exists b'. split; [reflexivity|]. split; [assumption|]. split; [assumption|].
    rewrite Hr, Hr1 in Hmono, HC', Hframe, Hrange.
    split; [lia|]. split; [|split].
    + replace (requests w' - requests w)%nat with (S (requests w' - S (requests w)))
        by lia.
      rewrite Nat2Z.inj_succ, Z.pow_succ_r by lia. lia.
    + intros id Hid. rewrite Hframe, Hother, Hl1 by lia. reflexivity.
    + intros id Hid. destruct (Nat.eq_dec id (requests w)) as [->|Hne].
      * rewrite Hframe, Hc2 by lia. now eexists.
      * apply Hrange. lia.
  - lia.
  - apply (granted_same w); [assumption|now rewrite Hgr|lia].
  - intros id Hid. rewrite Hr, Hr1 in Hid. rewrite Hother, Hl1 by lia. apply Hwf. lia.
  - now rewrite Hr.
Qed.

(** The sizing phase of [decompress], then the result phase, on a heap that
    grants every request. *)
Lemma decompress_frame w C p L w1 r w' :
  wf w -> granted w ->
  sizing (fun _ => malloc) f input inlen w = Ok (C, p, L) w1 ->
  decompress_result p L w1 = Ok r w' ->
  (requests w < requests w')%nat
  /\ C = 4096 * 2 ^ Z.of_nat (requests w' - requests w - 1)
  /\ (forall id, (id < requests w)%nat -> live w' !! id = live w !! id)
  /\ (forall id, (requests w <= id)%nat ->
        is_Some (live w' !! id) <-> (id < requests w' - 1)%nat)
  /\ ((requests w < requests w' - 1)%nat ->
      exists c, live w' !! requests w = Some c /\ length c = 4096%nat).
Proof.
  intros Hwf Hg. unfold sizing. rewrite bind_unfold, malloc_fresh by (lia || assumption).
  rewrite bind_unfold. set (w0 := log _ _).
  destruct (invoke _ _ _ _ _ w0) as [code w2|x w2|] eqn:Hi; [|discriminate..].
  apply invoke_frame in Hi as (Hr & Hgr & Hother & Hsame).
  destruct (Hsame _ (lookup_insert_eq _ _ _)) as (c2 & Hc2 & Hlen & _).
  rewrite fresh_length in Hlen.
  assert (Hr0 : requests w0 = S (requests w)) by reflexivity.
  assert (Hl0 : forall id, id <> requests w -> live w0 !! id = live w !! id).
  { intros id Hid. subst w0. simpl. now apply lookup_insert_ne. }
  intros Hloop Hres.
  apply (malloc_loop_frame fuel 4096 (requests w)) in Hloop
    as (b' & -> & Hb' & Hwf1 & Hmono & HC & Hframe & Hrange).
  2: lia.
  2: apply (granted_same w); [assumption|now rewrite Hgr|lia].
  2:{ intros id Hid. rewrite Hr, Hr0 in Hid. rewrite Hother, Hl0 by lia. apply Hwf. lia. }
  2: now rewrite Hr.
  apply decompress_result_heap in Hres as (b & [= <-] & Hl' & Hr').
  rewrite Hr, Hr0 in Hmono, HC, Hframe, Hrange.
  rewrite Hr', <- Hb'. simpl. rewrite Nat.sub_0_r.
  split; [lia|]. split; [|split; [|split]].
  - rewrite HC. do 3 f_equal. lia.
  - intros id Hid. rewrite Hl', lookup_delete_ne, Hframe, Hother, Hl0 by lia. reflexivity.
  - intros id Hid. rewrite Hl'. split.
    + intros Hsome. destruct (Nat.eq_dec id b') as [->|Hne].
      * rewrite lookup_delete_eq in Hsome. now destruct Hsome.
      * rewrite lookup_delete_ne in Hsome by congruence.
        destruct (Nat.lt_ge_cases id (requests w1)) as [|Hge]; [lia|].
        rewrite (Hwf1 id Hge) in Hsome. now destruct Hsome.
    + intros Hlt. rewrite lookup_delete_ne by lia.
      destruct (Nat.eq_dec id (requests w)) as [->|Hne].
      * rewrite Hframe, Hc2 by lia. now eexists.
      * apply Hrange. lia.
  - intros Hlt. exists c2.
    rewrite Hl', lookup_delete_ne, Hframe by lia. now split.
Qed.

End MallocLoop.

(** X4: on a heap that grants every request, a call of [decompress] that
    returns or raises has taken a new block for every round and released only
    the last: the blocks that were there before are untouched, and of the
    blocks the call allocated all but the last are still allocated. *)
Theorem decompress_keeps_earlier_buffers (smaz_decompress : transform)
    (d : list byte) (w : world) (r : PyResult) (w' : world) :
  wf w -> granted w ->
  py_smaz_decompress smaz_decompress [PyBytes d] w = Ok r w' ->
  (requests w < requests w')%nat
  /\ (forall id, (id < requests w)%nat -> live w' !! id = live w !! id)
  /\ (forall id, (requests w <= id)%nat ->
        is_Some (live w' !! id) <-> (id < requests w' - 1)%nat).
Proof.
  intros Hwf Hg. rewrite py_smaz_decompress_bytes, bind_unfold.
  destruct (sizing _ _ _ _ w) as [[[C p] L] w1|x w1|] eqn:Hs; [|discriminate..].
  intros Hres.
  destruct (decompress_frame _ _ _ w C p L w1 r w' Hwf Hg Hs Hres)
    as (Hlt & _ & Hframe & Hrange & _).
  split; [assumption|]. split; assumption.
Qed.

Lemma decompress_keeps_earlier_buffers_witness :
  exists r w',
    py_smaz_decompress verbatim [PyBytes (letters 5000)] plenty = Ok r w'
    /\ (requests plenty < requests w')%nat
    /\ (forall id, (id < requests plenty)%nat -> live w' !! id = live plenty !! id)
    /\ (forall id, (requests plenty <= id)%nat ->
          is_Some (live w' !! id) <-> (id < requests w' - 1)%nat).
Proof.
  destruct (decompress_correct verbatim (fun s => s) verbatim_honours (letters 5000) plenty)
    as (w' & Hrun & _).
  - unfold letters. rewrite repeat_length. vm_compute. discriminate.
  - unfold letters. rewrite repeat_length. vm_compute. discriminate.
  - exact plenty_granted.
  - replace (is_capacity (Z.of_nat (length (letters 5000)))) with false in Hrun
      by (unfold letters; rewrite repeat_length; vm_compute; reflexivity).
    exists (text_of (letters 5000)), w'. split; [exact Hrun|].
    exact (decompress_keeps_earlier_buffers verbatim _ plenty _ w'
             plenty_wf plenty_granted Hrun).
Defined.

(** *** [decompress] under the codec contract *)



Section DecompressLeak.

Variable f : transform.
Variable image : list byte -> list byte.
Hypothesis f_honours : honours f image.


End DecompressLeak.



(** ** A heap that refuses every request *)

Lemma refused_log e w : refused w -> refused (log e w).
Proof. intros H. exact H. Qed.

Lemma refused_next w : refused w -> refused (next_request w).
Proof. intros H i Hi. apply H. simpl in Hi. lia. Qed.

Lemma malloc_starved size w :
  refused w ->
  exists w', malloc size w = Ok None w' /\ refused w' /\ live w' = live w.
Proof.
  intros H. rewrite malloc_refused by (apply H; lia).
  eexists. split; [reflexivity|]. split; [|reflexivity].
  now apply refused_log, refused_next.
Qed.

Lemma realloc_starved size w :
  refused w ->
  exists w', realloc None size w = Ok None w' /\ refused w' /\ live w' = live w.
Proof.
  intros H. unfold realloc. rewrite (H (requests w)), andb_false_r by lia.
  eexists. split; [reflexivity|]. split; [|reflexivity].
  now apply refused_log, refused_next.
Qed.

Lemma invoke_none f input inlen outlen w :
  (exists code, invoke f input inlen None outlen w
                = Ok code (log (EInvoke inlen None outlen) w))
  \/ invoke f input inlen None outlen w
     = Fault NullDereference (log (EInvoke inlen None outlen) w).
Proof.
  unfold invoke. destruct (f input inlen outlen) as [code [|b st]].
  - left. now exists code.
  - now right.
Qed.

Section Starved.

Variable grow : pointer -> Z -> M pointer.
Variable f : transform.
Variable input : list byte.
Variable inlen : Z.
Hypothesis grow_starved : forall size w,
  refused w -> exists w', grow None size w = Ok None w' /\ refused w' /\ live w' = live w.

Lemma sizing_loop_starved n C code w :
  refused w ->
  match sizing_loop grow f input inlen n C None code w with
  | Ok (_, p, _) w' => p = None /\ live w' = live w
  | Fault x _ => x = NullDereference \/ x = SignedOverflow
  | Timeout => True
  end.
Proof.
  revert C code w. induction n as [|n IH]; intros C code w Hw; [exact I|].
  rewrite sizing_loop_S, bind_unfold.
  destruct (int_add_cases C 1 w) as [[_ ->]|[_ ->]]; [|now right].
  destruct (C + 1 =? code); [|now split].
  rewrite bind_unfold.
  destruct (int_mul_cases C 2 w) as [[_ ->]|[_ ->]]; [|now right].
  rewrite bind_unfold.
  destruct (grow_starved (C * 2) w Hw) as (w1 & -> & Hw1 & Hl1).
  rewrite bind_unfold.
  destruct (invoke_none f input inlen (C * 2) w1) as [[code1 ->]| ->]; [|now left].
  specialize (IH (C * 2) code1 (log (EInvoke inlen None (C * 2)) w1) (refused_log _ _ Hw1)).
  destruct (sizing_loop _ _ _ _ _ _ _ _ _) as [[[C' p'] L] w'|x w'|]; [|assumption..].
  destruct IH as [-> Hl]. split; [reflexivity|]. now rewrite Hl.
Qed.

Lemma sizing_starved w :
  refused w ->
  match sizing grow f input inlen w with
  | Ok (_, p, _) w' => p = None /\ live w' = live w
  | Fault x _ => x = NullDereference \/ x = SignedOverflow
  | Timeout => True
  end.
Proof.
  intros Hw. unfold sizing. rewrite bind_unfold.
  destruct (malloc_starved 4096 w Hw) as (w1 & -> & Hw1 & Hl1).
  rewrite bind_unfold.
  destruct (invoke_none f input inlen 4096 w1) as [[code1 ->]| ->]; [|now left].
  pose proof (sizing_loop_starved fuel 4096 code1 _ (refused_log (EInvoke inlen None 4096) _ Hw1))
    as Hloop.
  destruct (sizing_loop _ _ _ _ _ _ _ _ _) as [[[C' p'] L] w'|x w'|]; [|assumption..].
  destruct Hloop as [-> Hl]. split; [reflexivity|]. now rewrite Hl.
Qed.

End Starved.

(** X6: on a heap that refuses every request no buffer is ever obtained, and
    no exception is raised for it.  [compress] of a [str] without null
    character either returns [None], leaving the heap as it was, or is
    undefined; [decompress] of a [bytes] object is undefined whatever the
    codec does, since the terminator is stored through the null pointer. *)
Theorem refused_heap_outcomes (smaz_compress smaz_decompress : transform)
    (u d : list byte) (w : world) :
  refused w ->
  (has_nul u = false ->
   (exists w', py_smaz_compress smaz_compress [PyUnicode u] w = Ok (PyReturn PyNone) w'
               /\ live w' = live w)
   \/ faults (py_smaz_compress smaz_compress [PyUnicode u] w) NullDereference
   \/ faults (py_smaz_compress smaz_compress [PyUnicode u] w) SignedOverflow)
  /\ (faults (py_smaz_decompress smaz_decompress [PyBytes d] w) NullDereference
      \/ faults (py_smaz_decompress smaz_decompress [PyBytes d] w) SignedOverflow).
Proof.
  intros Hw. split.
  - intros Hu.
    pose proof (py_smaz_compress_ends smaz_compress [PyUnicode u] w) as Hend.
    rewrite py_smaz_compress_str, bind_unfold in * by assumption.
    pose proof (sizing_starved realloc smaz_compress (u ++ [x00])
                  (CInt.of_size (Z.of_nat (length u))) realloc_starved w Hw) as Hs.
    destruct (sizing _ _ _ _ w) as [[[C p] L] w1|x w1|]; [|..|congruence].
    + destruct Hs as [-> Hl]. left. eexists. split; [reflexivity|]. exact Hl.
    + right. destruct Hs as [-> | ->]; [left|right]; now exists w1.
  - pose proof (py_smaz_decompress_ends smaz_decompress [PyBytes d] w) as Hend.
    rewrite py_smaz_decompress_bytes, bind_unfold in *.
    pose proof (sizing_starved (fun _ => malloc) smaz_decompress (d ++ [x00])
                  (CInt.of_size (Z.of_nat (length d)))
                  malloc_starved w Hw) as Hs.
    destruct (sizing _ _ _ _ w) as [[[C p] L] w1|x w1|]; [|..|congruence].
    + destruct Hs as [-> _]. left. now exists w1.
    + destruct Hs as [-> | ->]; [left|right]; now exists w1.
Qed.

Lemma exhausted_refused : refused exhausted.
Proof. intros i _. reflexivity. Qed.

Lemma refused_heap_outcomes_witness :
  ((exists w', py_smaz_compress verbatim [PyUnicode [x61]] exhausted
               = Ok (PyReturn PyNone) w' /\ live w' = live exhausted)
   \/ faults (py_smaz_compress verbatim [PyUnicode [x61]] exhausted) NullDereference
   \/ faults (py_smaz_compress verbatim [PyUnicode [x61]] exhausted) SignedOverflow)
  /\ (faults (py_smaz_decompress verbatim [PyBytes [x61]] exhausted) NullDereference
      \/ faults (py_smaz_decompress verbatim [PyBytes [x61]] exhausted) SignedOverflow).
Proof.
  destruct (refused_heap_outcomes verbatim verbatim [x61] [x61] exhausted exhausted_refused)
    as [Hc Hd].
  split; [apply Hc; reflexivity|exact Hd].
Defined.

(** ** The undefined behaviour a call can run into *)


Section Safe.

Variable grow : pointer -> Z -> M pointer.
Variable f : transform.
Variable input : list byte.
Variable inlen : Z.
Hypothesis grow_grows : grows grow.



End Safe.





(** ** The shape of a result *)






(** ** Output that is not UTF-8 *)




(** ** The round trip and the heap *)




(** ** The capacity the sizing phase stops at *)




(** ** Inputs longer than an [int] can tell *)

(** X12: the length of the input reaches the codec as an [int].  A [str]
    whose UTF-8 form, or a [bytes] object whose content, is [n] bytes long
    with [2^31 <= n < 2^32] is handed to the codec, at the first call on the
    buffer of 4096 bytes, with the negative length [n - 2^32]. *)
Theorem long_input_length_wraps (smaz_compress smaz_decompress : transform)
    (u d : list byte) (w : world) :
  (has_nul u = false ->
   2 ^ 31 <= Z.of_nat (length u) < 2 ^ 32 ->
   py_smaz_compress smaz_compress [PyUnicode u] w <> Timeout
   /\ exists p evs,
        events_since w (py_smaz_compress smaz_compress [PyUnicode u] w)
          (EMalloc 4096 p :: EInvoke (Z.of_nat (length u) - 2 ^ 32) p 4096 :: evs))
  /\ (2 ^ 31 <= Z.of_nat (length d) < 2 ^ 32 ->
      py_smaz_decompress smaz_decompress [PyBytes d] w <> Timeout
      /\ exists p evs,
           events_since w (py_smaz_decompress smaz_decompress [PyBytes d] w)
             (EMalloc 4096 p :: EInvoke (Z.of_nat (length d) - 2 ^ 32) p 4096 :: evs)).
Proof.
  split.
  - intros Hu Hlen. split; [apply py_smaz_compress_ends|].
    rewrite py_smaz_compress_str, of_size_wraps by assumption.
    destruct (sizing_first realloc smaz_compress (u ++ [x00])
                (Z.of_nat (length u) - 2 ^ 32) w realloc_quiet) as (p & evs & Hev).
    destruct (events_since_bind
                (sizing realloc smaz_compress (u ++ [x00]) (Z.of_nat (length u) - 2 ^ 32))
                (fun '(_, output_buffer, compressed_size) =>
                   compress_result output_buffer compressed_size) w _ Hev)
      as (evs' & Hev' & _).
    { intros [[C q] L] w1 _. apply compress_result_events. }
    exists p, (evs ++ evs'). exact Hev'.
  - intros Hlen. split; [apply py_smaz_decompress_ends|].
    rewrite py_smaz_decompress_bytes, of_size_wraps by assumption.
    destruct (sizing_first (fun _ => malloc) smaz_decompress (d ++ [x00])
                (Z.of_nat (length d) - 2 ^ 32) w malloc_quiet) as (p & evs & Hev).
    destruct (events_since_bind
                (sizing (fun _ => malloc) smaz_decompress (d ++ [x00])
                   (Z.of_nat (length d) - 2 ^ 32))
                (fun '(_, output_buffer, decompressed_size) =>
                   decompress_result output_buffer decompressed_size) w _ Hev)
      as (evs' & Hev' & _).
    { intros [[C q] L] w1 _. apply decompress_result_events. }
    exists p, (evs ++ evs'). exact Hev'.
Qed.

Lemma long_input_length_wraps_witness :
  py_smaz_decompress verbatim [PyBytes (letters (2 ^ 31))] plenty <> Timeout
  /\ exists p evs,
       events_since plenty (py_smaz_decompress verbatim [PyBytes (letters (2 ^ 31))] plenty)
         (EMalloc 4096 p
          :: EInvoke (Z.of_nat (length (letters (2 ^ 31))) - 2 ^ 32) p 4096 :: evs).
Proof.
  apply (proj2 (long_input_length_wraps verbatim verbatim [] (letters (2 ^ 31)) plenty)).
  unfold letters. rewrite repeat_length, Z2Nat.id; lia.
Defined.

(** ** The module *)

Lemma function_of_smaz c d name :
  function_of (PyInit_smaz c d) name
  = if String.eqb "decompress" name then
      Some (MethodDef (Some "decompress"%string) (Some (py_smaz_decompress d))
              METH_VARARGS (Some decompress_doc))
    else if String.eqb "compress" name then
      Some (MethodDef (Some "compress"%string) (Some (py_smaz_compress c))
              METH_VARARGS (Some compress_doc))
    else None.
Proof.
  unfold function_of, PyInit_smaz, PyModule_Create. cbn -[String.eqb compress_doc decompress_doc].
  destruct (String.eqb "decompress" name); [reflexivity|].
  destruct (String.eqb "compress" name); reflexivity.
Qed.

(** X13: the module that [PyInit_smaz] creates is named [smaz] and has
    exactly two functions, [compress] and [decompress]: the sentinel of the
    method table ends it and is no function.  Each of the two is called
    under [METH_VARARGS], carries a docstring, and is known under the name of
    its table entry. *)
Theorem module_has_two_functions (smaz_compress smaz_decompress : transform)
    (name : string) :
  md_name (PyInit_smaz smaz_compress smaz_decompress) = "smaz"%string
  /\ length (md_functions (PyInit_smaz smaz_compress smaz_decompress)) = 2%nat
  /\ (is_Some (function_of (PyInit_smaz smaz_compress smaz_decompress) name)
      <-> name = "compress"%string \/ name = "decompress"%string)
  /\ (forall m,
        function_of (PyInit_smaz smaz_compress smaz_decompress) name = Some m ->
        ml_name m = Some name /\ ml_flags m = METH_VARARGS
        /\ exists doc, ml_doc m = Some doc /\ doc <> EmptyString).
Proof.
  split; [reflexivity|]. split; [reflexivity|].
  rewrite function_of_smaz.
  destruct (String.eqb_spec "decompress" name) as [<-|Hd].
  { split.
    - split; [now right|now eexists].
    - intros m [= <-]. split; [reflexivity|]. split; [reflexivity|].
      eexists. split; [reflexivity|]. discriminate. }
  destruct (String.eqb_spec "compress" name) as [<-|Hc].
  { split.
    - split; [now left|now eexists].
    - intros m [= <-]. split; [reflexivity|]. split; [reflexivity|].
      eexists. split; [reflexivity|]. discriminate. }
  split.
  - split; [now intros [m [=]]|]. intros [-> | ->]; congruence.
  - discriminate.
Qed.

Lemma module_has_two_functions_witness :
  exists m,
    function_of (PyInit_smaz verbatim verbatim) "decompress" = Some m
    /\ ml_name m = Some "decompress"%string /\ ml_flags m = METH_VARARGS
    /\ exists doc, ml_doc m = Some doc /\ doc <> EmptyString.
Proof.
  destruct (module_has_two_functions verbatim verbatim "decompress") as (_ & _ & _ & H).
  eexists. split; [reflexivity|]. apply H. reflexivity.
Defined.
